(** * Two broadcast firmwares for transiently powered sensor nodes

    A shallow embedding of [firmware/trickle/tpwsn-trickle.c] and
    [firmware/rmh/tpwsn-rmh.c].  Globals of each firmware become the fields
    of a node record, every handler becomes a function from the node to the
    node it leaves behind together with the list of calls it made into the
    operating system (log lines, radio control, sends, Trickle signals), and
    the timers of the operating system are kept by their expiry instant. *)

From Stdlib Require Import ZArith List String Ascii Bool Lia Arith.
Import ListNotations.

Local Open Scope string_scope.
Local Open Scope Z_scope.

(** ** C arithmetic and the C library calls the handlers rely on *)

Module C.

(** [(uint8_t) z] *)
Definition uint8 (z : Z) : Z := z mod 256.

(** [(signed char) z]: the low eight bits read in two's complement. *)
Definition signed_char (z : Z) : Z := (z + 128) mod 256 - 128.

(** [long] on the MSP430 of the Sky mote is 32 bits wide. *)
Definition LONG_MAX : Z := 2147483647.
Definition LONG_MIN : Z := -2147483648.

(** Ticks of [clock_time()] per second on the Sky mote. *)
Definition CLOCK_SECOND : Z := 128.

Definition isspace (c : ascii) : bool :=
  let n := N_of_ascii c in
  (N.eqb n 32 || (N.leb 9 n && N.leb n 13))%bool.

Definition digit_of (c : ascii) : option Z :=
  let n := N_of_ascii c in
  if (N.leb 48 n && N.leb n 57)%bool then Some (Z.of_N n - 48) else None.

Fixpoint skip_spaces (s : string) : string :=
  match s with
  | String c rest => if isspace c then skip_spaces rest else s
  | EmptyString => s
  end.

(** The digits of [strtol]: [acc] is the magnitude read so far, kept
    saturated at [bound]. *)
Fixpoint digits (bound : Z) (s : string) (acc : Z) : Z :=
  match s with
  | String c rest =>
      match digit_of c with
      | Some d => digits bound rest (Z.min bound (acc * 10 + d))
      | None => acc
      end
  | EmptyString => acc
  end.

(** [strtol(s, &endptr, 10)]: leading white space, an optional sign, then
    decimal digits; 0 when there is no digit, and the result clamped to
    [LONG_MIN .. LONG_MAX]. *)
Definition strtol (s : string) : Z :=
  match skip_spaces s with
  | String "-" rest => - digits (- LONG_MIN) rest 0
  | String "+" rest => digits LONG_MAX rest 0
  | rest => digits LONG_MAX rest 0
  end.

(** The successive results of [strtok(data, " ")], [strtok(NULL, " ")], ...
    up to the first NULL: the maximal runs of characters other than the
    space. [cur] is the run being read. *)
Fixpoint strtok_from (s : string) (cur : string) : list string :=
  match s with
  | EmptyString => match cur with EmptyString => [] | _ => [cur] end
  | String c rest =>
      if Ascii.eqb c " "
      then match cur with
           | EmptyString => strtok_from rest EmptyString
           | _ => cur :: strtok_from rest EmptyString
           end
      else strtok_from rest (cur ++ String c EmptyString)
  end.

Definition strtok (data : string) : list string := strtok_from data EmptyString.

(** [strcmp(a, b) == 0] *)
Definition streq (a b : string) : bool := String.eqb a b.

(** A numeric token of a command line: decimal digits, at least one. *)
Definition is_digit (c : ascii) : bool :=
  match digit_of c with Some _ => true | None => false end.

Fixpoint all_digits (s : string) : bool :=
  match s with
  | EmptyString => true
  | String c rest => (is_digit c && all_digits rest)%bool
  end.

Definition numeric (s : string) : bool :=
  match s with
  | EmptyString => false
  | String _ _ => all_digits s
  end.

End C.

(** ** Timers of the operating system

    The event timer of Contiki (sys/etimer.h) is not part of src/.  It is
    taken as the one-shot timer of the Clock/Timer facility of the
    specification.  Instants and intervals are counted in ticks without
    wrap-around, the width of [clock_time_t] being declared in a header
    that is not part of src/ either. *)

Module Etimer.

(** Modelled from the spec: a one-shot timer (sys/etimer.h is not part of
    src/).  [Some e]: pending, expires at tick [e].  [None]: not pending. *)
Definition etimer := option Z.

(** Modelled from the spec: arming the timer (etimer_set, not part of
    src/) replaces whatever was pending. *)
Definition etimer_set (now interval : Z) : etimer := Some (now + interval).

(** Modelled from the spec: cancelling the timer (etimer_stop, not part of
    src/) leaves nothing pending. *)
Definition etimer_stop : etimer := None.

(** Modelled from the spec: a timer (etimer_expired, not part of src/) has
    expired once its instant is reached; a timer with nothing pending reads
    as expired. *)
Definition etimer_expired (now : Z) (et : etimer) : bool :=
  match et with
  | Some e => e <=? now
  | None => true
  end.

End Etimer.

(** ** The Trickle timer engine

    The engine itself (Contiki's lib/trickle-timer.c) is not part of src/,
    which only holds its caller.  The definitions follow section 4.1 of the
    specification.  The random draws are inputs. *)

Module Trickle.

Local Open Scope N_scope.

(** Modelled from the spec: the TrickleState of section 3 (struct
    trickle_timer is declared in lib/trickle-timer.h, not part of src/). *)
Record trickle_timer := mk_tt {
  i_min : N;          (* shortest interval *)
  i_max : N;          (* number of doublings *)
  k : N;              (* redundancy constant *)
  i_cur : N;          (* current interval *)
  c : N;              (* consistency counter *)
  t : N               (* transmission instant inside the interval *)
}.

(** Modelled from the spec: the longest interval, [i_min * 2^i_max]. *)
Definition i_max_abs (tt : trickle_timer) : N := i_min tt * 2 ^ i_max tt.

(** Modelled from the spec: [t] is drawn from [[i/2, i)]; [r] is the random
    value that picks the point. *)
Definition draw_t (i r : N) : N :=
  if i =? 0 then 0 else i / 2 + r mod (i - i / 2).

(** Modelled from the spec: the start of an interval of length [i] redraws
    [t] and resets [c] to 0. *)
Definition new_interval (i r : N) (tt : trickle_timer) : trickle_timer :=
  mk_tt (i_min tt) (i_max tt) (k tt) i 0 (draw_t i r).

(** Modelled from the spec: [configure(i_min, i_max_doublings, k)] followed
    by [start] (trickle_timer_config and trickle_timer_set, not part of
    src/): the first interval has length [i_min]. *)
Definition start (imin imax kk r : N) : trickle_timer :=
  mk_tt imin imax kk imin 0 (draw_t imin r).

(** Modelled from the spec: [signal_consistent()] (trickle_timer_consistency,
    not part of src/) increments [c] and touches neither the interval nor
    [t]. *)
Definition signal_consistent (tt : trickle_timer) : trickle_timer :=
  mk_tt (i_min tt) (i_max tt) (k tt) (i_cur tt) (c tt + 1) (t tt).

(** Modelled from the spec: [signal_inconsistent()]
    (trickle_timer_inconsistency, not part of src/) collapses the interval
    to [i_min]; at [i_min] already, a fresh interval is still started. *)
Definition signal_inconsistent (r : N) (tt : trickle_timer) : trickle_timer :=
  if i_min tt <? i_cur tt
  then new_interval (i_min tt) r tt
  else new_interval (i_cur tt) r tt.

(** Modelled from the spec: the external [reset()]
    (trickle_timer_reset_event, not part of src/) does what an inconsistency
    does. *)
Definition reset (r : N) (tt : trickle_timer) : trickle_timer :=
  signal_inconsistent r tt.

(** Modelled from the spec: at the interval end the interval is doubled,
    capped at [i_min * 2^i_max], and a new interval starts. *)
Definition interval_end (r : N) (tt : trickle_timer) : trickle_timer :=
  new_interval (N.min (2 * i_cur tt) (i_max_abs tt)) r tt.

(** What can happen to a running engine. *)
Inductive event :=
| Consistent
| Inconsistent (r : N)
| Reset (r : N)
| IntervalEnd (r : N).

Definition step (tt : trickle_timer) (e : event) : trickle_timer :=
  match e with
  | Consistent => signal_consistent tt
  | Inconsistent r => signal_inconsistent r tt
  | Reset r => reset r tt
  | IntervalEnd r => interval_end r tt
  end.

Definition run (tt : trickle_timer) (es : list event) : trickle_timer :=
  fold_left step es tt.

(** The bounds of section 3 on the current interval. *)
Definition in_bounds (tt : trickle_timer) : Prop :=
  i_min tt <= i_cur tt /\ i_cur tt <= i_min tt * 2 ^ i_max tt.

End Trickle.

(** ** Handlers as state transformers that leave a trace

    A handler reads and writes the static variables of its file (the state
    [S]) and calls into the operating system (the effects [E], listed in
    the order of the calls). *)

Module Eff.

Definition M (S E A : Type) : Type := S -> A * S * list E.

Definition ret {S E A} (a : A) : M S E A := fun s => (a, s, []).
Definition bind {S E A B} (m : M S E A) (f : A -> M S E B) : M S E B :=
  fun s => let '(a, s1, tr1) := m s in
           let '(b, s2, tr2) := f a s1 in
           (b, s2, (tr1 ++ tr2)%list).
Definition gets {S E A} (f : S -> A) : M S E A := fun s => (f s, s, []).
Definition modify {S E} (f : S -> S) : M S E unit := fun s => (tt, f s, []).
Definition emit {S E} (e : E) : M S E unit := fun s => (tt, s, [e]).

Definition state_after {S E A} (m : M S E A) (s : S) : S := snd (fst (m s)).
Definition trace_of {S E A} (m : M S E A) (s : S) : list E := snd (m s).
Definition value_of {S E A} (m : M S E A) (s : S) : A := fst (fst (m s)).

Module Notations.
Notation "x <- m ;; f" := (bind m (fun x => f))
  (at level 61, m at next level, right associativity).
Notation "m ;; f" := (bind m (fun _ => f))
  (at level 61, right associativity).
End Notations.

End Eff.

(** ** firmware/trickle/tpwsn-trickle.c *)

Module TrickleFw.

Import C Etimer Eff Eff.Notations.

(** Modelled from the spec: the flag the engine hands to the callback when
    the transmission is suppressed (the macro is defined in
    lib/trickle-timer.h, not part of src/). *)
Definition TRICKLE_TIMER_TX_SUPPRESS : Z := 0.

(** Modelled from the spec: the flag the engine hands to the callback when
    it may transmit (lib/trickle-timer.h, not part of src/). *)
Definition TRICKLE_TIMER_TX_OK : Z := 1.

Definition NEW_TOKEN_INTERVAL : Z := 5 * CLOCK_SECOND.
Definition NEW_TOKEN_PROB : Z := 2.

(** The file's static variables.  [tt] lives inside the engine; the calls
    made on it are effects below. *)
Record node := mk_node {
  imin : Z;                   (* static long imin = 16 *)
  imax : Z;                   (* static long imax = 10 *)
  redundancy_const : Z;       (* static long redundancy_const = 2 *)
  msg_limit : Z;              (* static long msg_limit = 1 *)
  suppress_trickle : bool;
  is_source : bool;
  is_sink : bool;
  reset_scheduled : bool;
  token : Z;                  (* static uint8_t token *)
  et : etimer;                (* periodic generation of tokens *)
  rt : etimer                 (* restart of the node *)
}.

(** The variables as the loader leaves them, before the process runs. *)
Definition boot : node :=
  mk_node 16 10 2 1 false false false false 0 None None.

Definition set_imin v s := mk_node v (imax s) (redundancy_const s) (msg_limit s)
  (suppress_trickle s) (is_source s) (is_sink s) (reset_scheduled s) (token s) (et s) (rt s).
Definition set_imax v s := mk_node (imin s) v (redundancy_const s) (msg_limit s)
  (suppress_trickle s) (is_source s) (is_sink s) (reset_scheduled s) (token s) (et s) (rt s).
Definition set_redundancy_const v s := mk_node (imin s) (imax s) v (msg_limit s)
  (suppress_trickle s) (is_source s) (is_sink s) (reset_scheduled s) (token s) (et s) (rt s).
Definition set_msg_limit v s := mk_node (imin s) (imax s) (redundancy_const s) v
  (suppress_trickle s) (is_source s) (is_sink s) (reset_scheduled s) (token s) (et s) (rt s).
Definition set_suppress_trickle v s := mk_node (imin s) (imax s) (redundancy_const s) (msg_limit s)
  v (is_source s) (is_sink s) (reset_scheduled s) (token s) (et s) (rt s).
Definition set_is_source v s := mk_node (imin s) (imax s) (redundancy_const s) (msg_limit s)
  (suppress_trickle s) v (is_sink s) (reset_scheduled s) (token s) (et s) (rt s).
Definition set_is_sink v s := mk_node (imin s) (imax s) (redundancy_const s) (msg_limit s)
  (suppress_trickle s) (is_source s) v (reset_scheduled s) (token s) (et s) (rt s).
Definition set_reset_scheduled v s := mk_node (imin s) (imax s) (redundancy_const s) (msg_limit s)
  (suppress_trickle s) (is_source s) (is_sink s) v (token s) (et s) (rt s).
Definition set_token v s := mk_node (imin s) (imax s) (redundancy_const s) (msg_limit s)
  (suppress_trickle s) (is_source s) (is_sink s) (reset_scheduled s) v (et s) (rt s).
Definition set_et v s := mk_node (imin s) (imax s) (redundancy_const s) (msg_limit s)
  (suppress_trickle s) (is_source s) (is_sink s) (reset_scheduled s) (token s) v (rt s).
Definition set_rt v s := mk_node (imin s) (imax s) (redundancy_const s) (msg_limit s)
  (suppress_trickle s) (is_source s) (is_sink s) (reset_scheduled s) (token s) (et s) v.

(** What a handler does to the world around the variables above, in the
    order it does it.  A log line is its format string with the firmware's
    own variables among its arguments (the clock and the fields read out of
    [tt] for display are left out).  The assignment to [token] on receipt
    is recorded as well, so that its place before or after a signal can be
    read off the trace. *)
Inductive effect :=
| LOG (fmt : string) (args : list Z)
| TOKEN_assign (v : Z)
| TT_config (i_min i_max k : Z)      (* trickle_timer_config(&tt, ...) *)
| TT_set                             (* trickle_timer_set(&tt, trickle_tx, &tt) *)
| TT_consistency                     (* trickle_timer_consistency(&tt) *)
| TT_inconsistency                   (* trickle_timer_inconsistency(&tt) *)
| TT_reset_event                     (* trickle_timer_reset_event(&tt) *)
| UDP_send (payload : list Z)        (* uip_udp_packet_send to all nodes *)
| RADIO_off
| RADIO_on
| LEDS_on
| LEDS_off.

(** Handlers run in the state-and-trace monad over the node. *)
Definition M (A : Type) : Type := Eff.M node effect A.

(** The test of line 116, [(signed char)(token - theirs) < 0]: what the
    handler calls "theirs is newer". *)
Definition theirs_is_newer (ours theirs : Z) : bool :=
  signed_char (ours - theirs) <? 0.

(** [tcpip_handler]. [pkt] is [None] when [uip_newdata()] is 0, and
    otherwise holds [((uint8_t * ) uip_appdata)[0]]. *)
Definition tcpip_handler (pkt : option Z) : M unit :=
  match pkt with
  | None => ret tt
  | Some theirs =>
      sink <- gets is_sink ;;
      ours <- gets token ;;
      (if sink
       then emit (LOG "Sink recv'd at %lu (I=%lu, c=%u): " []) ;;
            emit (LOG "Our token=0x%02x, theirs=0x%02x\n" [ours; theirs])
       else emit (LOG "At %lu (I=%lu, c=%u): " []) ;;
            emit (LOG "Our token=0x%02x, theirs=0x%02x\n" [ours; theirs])) ;;
      if ours =? theirs
      then emit (LOG "Consistent RX\n" []) ;;
           emit TT_consistency
      else (if theirs_is_newer ours theirs
            then emit (LOG "Theirs is newer. Update\n" []) ;;
                 modify (set_token theirs) ;;
                 emit (TOKEN_assign theirs)
            else emit (LOG "They are behind\n" [])) ;;
           emit TT_inconsistency ;;
           emit (LOG "At %lu: Trickle inconsistency. Scheduled TX for %lu\n" [])
  end.

(** [trickle_tx], the callback handed to the engine. *)
Definition trickle_tx (suppress : Z) : M unit :=
  sup <- gets suppress_trickle ;;
  if ((suppress =? TRICKLE_TIMER_TX_SUPPRESS) || sup)%bool
  then ret tt
  else tok <- gets token ;;
       emit (LOG "At %lu (I=%lu, c=%u): " []) ;;
       emit (LOG "Trickle TX token 0x%02x\n" [tok]) ;;
       emit (UDP_send [tok]).

(** [trickle_init] *)
Definition trickle_init (now : Z) : M unit :=
  modify (set_token 0) ;;
  modify (set_suppress_trickle false) ;;
  a <- gets imin ;; b <- gets imax ;; k <- gets redundancy_const ;;
  emit (TT_config a b k) ;;
  emit TT_set ;;
  modify (set_et (etimer_set now NEW_TOKEN_INTERVAL)).

(** The locals of [serial_handler]. *)
Record locals := mk_locals {
  delay : Z;
  seen_sleep : bool;
  seen_set : bool;
  seen_init : bool;
  seen_imin : bool;
  seen_imax : bool;
  seen_cost : bool;
  seen_limit : bool;
  seen_print : bool
}.

Definition locals0 : locals :=
  mk_locals 0 false false false false false false false false.

Definition set_delay v l := mk_locals v (seen_sleep l) (seen_set l) (seen_init l)
  (seen_imin l) (seen_imax l) (seen_cost l) (seen_limit l) (seen_print l).
Definition set_seen_sleep l := mk_locals (delay l) true (seen_set l) (seen_init l)
  (seen_imin l) (seen_imax l) (seen_cost l) (seen_limit l) (seen_print l).
Definition set_seen_set l := mk_locals (delay l) (seen_sleep l) true (seen_init l)
  (seen_imin l) (seen_imax l) (seen_cost l) (seen_limit l) (seen_print l).
Definition set_seen_init l := mk_locals (delay l) (seen_sleep l) (seen_set l) true
  (seen_imin l) (seen_imax l) (seen_cost l) (seen_limit l) (seen_print l).
Definition set_seen_imin l := mk_locals (delay l) (seen_sleep l) (seen_set l) (seen_init l)
  true (seen_imax l) (seen_cost l) (seen_limit l) (seen_print l).
Definition set_seen_imax l := mk_locals (delay l) (seen_sleep l) (seen_set l) (seen_init l)
  (seen_imin l) true (seen_cost l) (seen_limit l) (seen_print l).
Definition set_seen_cost l := mk_locals (delay l) (seen_sleep l) (seen_set l) (seen_init l)
  (seen_imin l) (seen_imax l) true (seen_limit l) (seen_print l).
Definition set_seen_limit l := mk_locals (delay l) (seen_sleep l) (seen_set l) (seen_init l)
  (seen_imin l) (seen_imax l) (seen_cost l) true (seen_print l).
Definition set_seen_print l := mk_locals (delay l) (seen_sleep l) (seen_set l) (seen_init l)
  (seen_imin l) (seen_imax l) (seen_cost l) (seen_limit l) true.

(** Lines 203-219 of the loop body.  [None] is the [break]. *)
Definition parse_init (ptr : string) (l : locals) : M (option locals) :=
  let l := if streq ptr "init" then set_seen_init l else l in
  if seen_init l then
    if (seen_imax l && seen_imin l && seen_cost l)%bool then ret None
    else if (seen_imin l && seen_imax l)%bool then
      modify (set_redundancy_const (strtol ptr)) ;; ret (Some (set_seen_cost l))
    else if (negb (seen_imax l) && negb (seen_imin l))%bool then
      modify (set_imax (strtol ptr)) ;; ret (Some (set_seen_imax l))
    else if (seen_imax l && negb (seen_imin l))%bool then
      modify (set_imin (strtol ptr)) ;; ret (Some (set_seen_imin l))
    else ret (Some l)
  else ret (Some l).

(** Lines 221-229. *)
Definition parse_limit (ptr : string) (l : locals) : M locals :=
  l <- (if streq ptr "limit"
        then emit (LOG "Seen limit\n" []) ;; ret (set_seen_limit l)
        else ret l) ;;
  (if seen_limit l
   then modify (set_msg_limit (strtol ptr)) ;;
        emit (LOG "Setting limit to %ld\n" [strtol ptr])
   else ret tt) ;;
  ret l.

(** Lines 231-240. *)
Definition parse_print (ptr : string) (l : locals) : M locals :=
  l <- (if streq ptr "print"
        then emit (LOG "Seen print\n" []) ;; ret (set_seen_print l)
        else ret l) ;;
  (if seen_print l
   then tok <- gets token ;;
        emit (LOG "Current token: %d\n" [tok]) ;;
        emit RADIO_off ;;
        modify (set_suppress_trickle true)
   else ret tt) ;;
  ret l.

(** Lines 242-248. *)
Definition parse_sleep (ptr : string) (l : locals) : locals :=
  let l := if streq ptr "sleep" then set_seen_sleep l else l in
  if seen_sleep l then set_delay (strtol ptr) l else l.

(** Lines 250-264.  The test of line 251 is [strcmp(ptr, "set")] itself,
    which is non-zero when [ptr] differs from "set". *)
Definition parse_set (now : Z) (ptr : string) (l : locals) : M locals :=
  let l := if negb (streq ptr "set") then set_seen_set l else l in
  (if seen_set l then
     if streq ptr "sink" then
       emit (LOG "Setting node status to SINK\n" []) ;;
       modify (set_is_sink true) ;;
       trickle_init now
     else if streq ptr "source" then
       emit (LOG "Setting node status to SOURCE\n" []) ;;
       modify (set_is_source true) ;;
       trickle_init now
     else ret tt
   else ret tt) ;;
  ret l.

(** The [while (ptr != NULL)] loop over the tokens of the line. *)
Fixpoint serial_loop (now : Z) (toks : list string) (l : locals) : M locals :=
  match toks with
  | [] => ret l
  | ptr :: rest =>
      r <- parse_init ptr l ;;
      match r with
      | None => ret (if streq ptr "init" then set_seen_init l else l)
      | Some l =>
          l <- parse_limit ptr l ;;
          l <- parse_print ptr l ;;
          l <- parse_set now ptr (parse_sleep ptr l) ;;
          serial_loop now rest l
      end
  end.

(** [serial_handler] *)
Definition serial_handler (now : Z) (data : string) : M unit :=
  l <- serial_loop now (strtok data) locals0 ;;
  if (seen_sleep l && (0 <? delay l))%bool then
    emit (LOG "Restarting with delay of %ld seconds\n" [delay l]) ;;
    emit RADIO_off ;;
    modify (set_rt (etimer_set now (delay l * CLOCK_SECOND))) ;;
    modify (set_suppress_trickle true) ;;
    modify (set_reset_scheduled true) ;;
    emit LEDS_on
  else ret tt.

(** [restart_node] *)
Definition restart_node (now : Z) : M unit :=
  trickle_init now ;;
  modify (set_rt etimer_stop) ;;
  modify (set_reset_scheduled false) ;;
  emit RADIO_on ;;
  emit LEDS_off.

(** The events the process is woken up with. *)
Inductive proc_event :=
| Tcpip (pkt : option Z)              (* ev == tcpip_event *)
| Serial_line (data : option string)  (* ev == serial_line_event_message *)
| Other.                              (* any other event, timers among them *)

(** Lines 312-326: the branches taken for an event that is neither a packet
    nor a serial line.  [r] is the value of [random_rand()]. *)
Definition timers (now r : Z) : M unit :=
  e <- gets et ;; src <- gets is_source ;;
  if (etimer_expired now e && src)%bool then
    tok <- gets token ;; lim <- gets msg_limit ;;
    (if ((r mod NEW_TOKEN_PROB =? 0) && (tok <? lim))%bool
     then modify (set_token (uint8 (tok + 1))) ;;
          emit (LOG "At %lu: Generating a new token 0x%02x\n" [uint8 (tok + 1)]) ;;
          emit TT_reset_event
     else ret tt) ;;
    modify (set_et (etimer_set now NEW_TOKEN_INTERVAL))
  else
    e <- gets rt ;; sched <- gets reset_scheduled ;;
    if (etimer_expired now e && sched)%bool then
      emit (LOG "Restarting node at time %lu\n" []) ;;
      restart_node now
    else ret tt.

(** One turn of the [while (1)] loop of the process, after [PROCESS_YIELD]. *)
Definition process_event (now r : Z) (ev : proc_event) : M unit :=
  match ev with
  | Tcpip pkt => tcpip_handler pkt
  | Serial_line (Some data) => serial_handler now data
  | Serial_line None => timers now r
  | Other => timers now r
  end.

End TrickleFw.

(** ** firmware/rmh/tpwsn-rmh.c *)

Module RmhFw.

Import C Etimer Eff Eff.Notations.

Definition DATA_BUF_SIZE : nat := 6.
Definition NEIGHBOR_TIMEOUT : Z := 60 * CLOCK_SECOND.
Definition MAX_NEIGHBORS : nat := 16.

(** A Rime address: two bytes. *)
Record linkaddr_t := mk_addr { u8_0 : Z; u8_1 : Z }.

Definition linkaddr_cmp (a b : linkaddr_t) : bool :=
  ((u8_0 a =? u8_0 b) && (u8_1 a =? u8_1 b))%bool.

(** [struct example_neighbor].  [next] is the order of the list that holds
    the entries; [blk] is the block of [neighbor_mem] the entry lives in
    (its address); [ctimer] is the instant at which the callback timer calls
    [remove_neighbor] on the entry, if it is running. *)
Record example_neighbor := mk_neighbor {
  blk : nat;
  addr : linkaddr_t;
  ctimer : option Z
}.

Definition set_ctimer (v : option Z) (e : example_neighbor) : example_neighbor :=
  mk_neighbor (blk e) (addr e) v.

(** *** The list and the block pool

    Contiki's lib/list.c, lib/memb.c and sys/ctimer.c are not part of src/.
    The table is an ordered list, the pool a bounded set of blocks, each
    free or in use. *)

(** Modelled from the spec: the expiry timer of an entry (ctimer_set, not
    part of src/) is refreshed to a fixed timeout from now. *)
Definition ctimer_set (now interval : Z) : option Z := Some (now + interval).

(** Modelled from the spec: a stopped expiry timer (ctimer_stop, not part
    of src/) never fires. *)
Definition ctimer_stop : option Z := None.

(** Two entries are the same object when they live in the same block. *)
Definition same_block (e n : example_neighbor) : bool := Nat.eqb (blk e) (blk n).

(** Modelled from the spec: removal of an entry from the table
    (list_remove, not part of src/). *)
Fixpoint list_remove (l : list example_neighbor) (e : example_neighbor)
  : list example_neighbor :=
  match l with
  | [] => []
  | n :: rest => if same_block e n then rest else n :: list_remove rest e
  end.

(** Modelled from the spec: insertion of an entry into the table (list_add,
    not part of src/): the entry goes to the end, and is in the list once. *)
Definition list_add (l : list example_neighbor) (e : example_neighbor)
  : list example_neighbor :=
  (list_remove l e ++ [e])%list.

(** Modelled from the spec: list_chop (not part of src/) takes the last
    entry off the list. *)
Definition list_chop (l : list example_neighbor) : list example_neighbor :=
  removelast l.

(** Modelled from the spec: the number of entries (list_length, not part
    of src/). *)
Definition list_length (l : list example_neighbor) : Z := Z.of_nat (List.length l).

(** Modelled from the spec: the bounded pool (memb_init, not part of
    src/), with every block free. *)
Definition memb_init : list bool := repeat false MAX_NEIGHBORS.

(** Modelled from the spec: allocation from the bounded pool (memb_alloc,
    not part of src/): the first free block, marked as used; [None], for
    NULL, when the pool is exhausted. *)
Fixpoint memb_alloc (m : list bool) : option (nat * list bool) :=
  match m with
  | [] => None
  | used :: rest =>
      if used
      then match memb_alloc rest with
           | Some (i, rest') => Some (S i, used :: rest')
           | None => None
           end
      else Some (O, true :: rest)
  end.

(** Modelled from the spec: a block given back to the pool (memb_free, not
    part of src/) is free again. *)
Fixpoint memb_free (m : list bool) (i : nat) : list bool :=
  match m, i with
  | [], _ => []
  | _ :: rest, O => false :: rest
  | used :: rest, S j => used :: memb_free rest j
  end.

(** *** The static variables of the file *)

Record node := mk_node {
  data_buf : option string;           (* NULL, or the six bytes kept *)
  rt : etimer;                        (* the restart delay timer *)
  reset_scheduled : bool;
  neighbor_table : list example_neighbor;
  neighbor_mem : list bool            (* which blocks of the pool are in use *)
}.

Definition set_data_buf v s :=
  mk_node v (rt s) (reset_scheduled s) (neighbor_table s) (neighbor_mem s).
Definition set_rt v s :=
  mk_node (data_buf s) v (reset_scheduled s) (neighbor_table s) (neighbor_mem s).
Definition set_reset_scheduled v s :=
  mk_node (data_buf s) (rt s) v (neighbor_table s) (neighbor_mem s).
Definition set_neighbor_table v s :=
  mk_node (data_buf s) (rt s) (reset_scheduled s) v (neighbor_mem s).
Definition set_neighbor_mem v s :=
  mk_node (data_buf s) (rt s) (reset_scheduled s) (neighbor_table s) v.

Inductive arg := Int (z : Z) | Str (s : string).

(** Calls into the operating system.  The arguments of a [printf] that are
    the node's own address or packet attributes are left out. *)
Inductive effect :=
| PRINTF (fmt : string) (args : list arg)
| RADIO_off
| RADIO_on
| MULTIHOP_open
| MULTIHOP_close
| MULTIHOP_send (dest : linkaddr_t)
| ANNOUNCEMENT_register
| ANNOUNCEMENT_set_value (v : Z)
| ANNOUNCEMENT_remove
| BROADCAST_announcement_stop
| PACKETBUF_clear
| PACKETBUF_copyfrom (s : string).

Definition M (A : Type) : Type := Eff.M node effect A.

(** [remove_neighbor], the callback of an entry's timer. *)
Definition remove_neighbor (e : example_neighbor) : M unit :=
  modify (fun s => set_neighbor_table (list_remove (neighbor_table s) e) s) ;;
  modify (fun s => set_neighbor_mem (memb_free (neighbor_mem s) (blk e)) s).

(** The [for] loop of lines 146-152: the first entry whose address is
    [from] gets its timer set again; [None] when the loop runs to the end. *)
Fixpoint refresh (now : Z) (from : linkaddr_t) (l : list example_neighbor)
  : option (list example_neighbor) :=
  match l with
  | [] => None
  | e :: rest =>
      if linkaddr_cmp from (addr e)
      then Some (set_ctimer (ctimer_set now NEIGHBOR_TIMEOUT) e :: rest)
      else match refresh now from rest with
           | Some rest' => Some (e :: rest')
           | None => None
           end
  end.

(** [received_announcement] *)
Definition received_announcement (now : Z) (from : linkaddr_t) : M unit :=
  tbl <- gets neighbor_table ;;
  match refresh now from tbl with
  | Some tbl' => modify (set_neighbor_table tbl')
  | None =>
      mem <- gets neighbor_mem ;;
      match memb_alloc mem with
      | Some (i, mem') =>
          modify (set_neighbor_mem mem') ;;
          modify (set_neighbor_table
                    (list_add tbl (mk_neighbor i from
                                     (ctimer_set now NEIGHBOR_TIMEOUT))))
      | None => ret tt
      end
  end.

(** What becomes of a call that writes through [data_buf]: it runs to its
    end and returns, or it writes through the NULL pointer that [reset]
    leaves in [data_buf], at which point the C language stops saying what
    the mote does. *)
Inductive outcome (A : Type) :=
| Done (a : A)
| Fault.

Arguments Done {A} a.
Arguments Fault {A}.

(** [memcpy(data_buf, packetbuf_dataptr(), DATA_BUF_SIZE)].  There is no
    test of [data_buf] before the copy: while it is NULL the call faults,
    and nothing is written. *)
Definition store_packet (packet : string) : M (outcome unit) :=
  buf <- gets data_buf ;;
  match buf with
  | Some _ =>
      modify (set_data_buf (Some (substring 0 DATA_BUF_SIZE packet))) ;;
      ret (Done tt)
  | None => ret Fault
  end.

(** [recv], called at the final recipient.  The line is printed after the
    copy, so not at all when the copy faults. *)
Definition recv (packet : string) : M (outcome unit) :=
  c <- store_packet packet ;;
  match c with
  | Done _ => emit (PRINTF "sink received '%s'\n" [Str packet]) ;; ret (Done tt)
  | Fault => ret Fault
  end.

(** The [for] loop of lines 203-205: stop at the end of the list or at
    position [num]. *)
Fixpoint walk (n : list example_neighbor) (i num : Z) : option example_neighbor :=
  match n with
  | [] => None
  | e :: rest => if i =? num then Some e else walk rest (i + 1) num
  end.

(** [forward]. [r] is the value of [random_rand()]; the result is the
    address returned, [None] for NULL.  The first line is printed before
    the copy; when the copy faults the table is never looked at. *)
Definition forward (r : Z) (packet : string) : M (outcome (option linkaddr_t)) :=
  emit (PRINTF "multihop message received '%s'\n" [Str packet]) ;;
  c <- store_packet packet ;;
  match c with
  | Fault => ret Fault
  | Done _ =>
      tbl <- gets neighbor_table ;;
      found <- (if 0 <? list_length tbl
                then let num := r mod list_length tbl in
                     match walk tbl 0 num with
                     | Some n =>
                         emit (PRINTF "%d.%d: Forwarding packet to %d.%d (%d in list), hops %d\n"
                                 [Int (u8_0 (addr n)); Int (u8_1 (addr n)); Int num]) ;;
                         ret (Some (addr n))
                     | None => ret None
                     end
                else ret None) ;;
      match found with
      | Some a => ret (Done (Some a))
      | None => emit (PRINTF "%d.%d: did not find a neighbor to foward to\n" []) ;;
                ret (Done None)
      end
  end.

(** The [while] loop of lines 233-236, which chops until the list is
    empty; [fuel] bounds the number of turns. *)
Fixpoint chop_loop (fuel : nat) (l : list example_neighbor) : list example_neighbor :=
  match fuel with
  | O => l
  | S fuel' => if 0 <? list_length l then chop_loop fuel' (list_chop l) else l
  end.

(** [reset] *)
Definition reset (now restart_delay : Z) : M unit :=
  tbl <- gets neighbor_table ;;
  if 0 <? list_length tbl then
    modify (set_neighbor_table (map (set_ctimer ctimer_stop) tbl)) ;;
    modify (fun s => set_neighbor_table
                       (chop_loop (List.length (neighbor_table s)) (neighbor_table s)) s) ;;
    emit MULTIHOP_close ;;
    emit ANNOUNCEMENT_remove ;;
    emit PACKETBUF_clear ;;
    modify (set_data_buf None) ;;
    emit RADIO_off ;;
    modify (set_reset_scheduled true) ;;
    emit (PRINTF "%d.%d: Crashing mote, restart in %ld seconds\n" [Int restart_delay]) ;;
    modify (set_rt (etimer_set now (restart_delay * CLOCK_SECOND)))
  else ret tt.

(** [initialise] *)
Definition initialise : M unit :=
  modify (set_data_buf (Some EmptyString)) ;;
  modify (set_neighbor_mem memb_init) ;;
  modify (set_neighbor_table []) ;;
  emit MULTIHOP_open ;;
  emit ANNOUNCEMENT_register ;;
  emit (ANNOUNCEMENT_set_value 0).

(** [restart_node] *)
Definition restart_node : M unit :=
  modify (set_rt etimer_stop) ;;
  modify (set_reset_scheduled false) ;;
  emit RADIO_on ;;
  initialise.

(** The locals of [serial_handler] and its loop over the tokens. *)
Record locals := mk_locals { delay : Z; seen_sleep : bool; seen_print : bool }.

Definition serial_body (ptr : string) (l : locals) : M locals :=
  let sl := (streq ptr "sleep" || seen_sleep l)%bool in
  let d := if sl then strtol ptr else delay l in
  (if streq ptr "print" then emit (PRINTF "Seen print\n" []) else ret tt) ;;
  let sp := (streq ptr "print" || seen_print l)%bool in
  (if sp
   then buf <- gets data_buf ;;
        emit (PRINTF "Current token: %s\n"
                [Str (match buf with Some b => b | None => EmptyString end)]) ;;
        emit RADIO_off ;;
        emit MULTIHOP_close ;;
        emit ANNOUNCEMENT_remove ;;
        emit BROADCAST_announcement_stop
   else ret tt) ;;
  ret (mk_locals d sl sp).

Fixpoint serial_loop (toks : list string) (l : locals) : M locals :=
  match toks with
  | [] => ret l
  | ptr :: rest => l' <- serial_body ptr l ;; serial_loop rest l'
  end.

(** [serial_handler] *)
Definition serial_handler (now : Z) (data : string) : M unit :=
  l <- serial_loop (strtok data) (mk_locals 0 false false) ;;
  if (seen_sleep l && (0 <? delay l))%bool
  then reset now (delay l)
  else ret tt.

(** The events the process is woken up with. *)
Inductive proc_event :=
| Button                              (* sensors_event of the button *)
| Serial_line (data : option string)  (* serial_line_event_message *)
| Other.

Definition restart_if_due (now : Z) : M unit :=
  e <- gets rt ;; sched <- gets reset_scheduled ;;
  if (etimer_expired now e && sched)%bool
  then emit (PRINTF "Restarting node at time %lu\n" [Int now]) ;;
       restart_node
  else ret tt.

(** One turn of the [while(1)] loop of the process. *)
Definition process_event (now : Z) (ev : proc_event) : M unit :=
  match ev with
  | Button =>
      emit (PRINTF "Button pressed, starting RMH bcast\n" []) ;;
      emit (PACKETBUF_copyfrom "hello") ;;
      emit (MULTIHOP_send (mk_addr 1 0))
  | Serial_line (Some data) => serial_handler now data
  | Serial_line None => restart_if_due now
  | Other => restart_if_due now
  end.

(** The node once the process has called [initialise]. *)
Definition boot : node := mk_node (Some EmptyString) None false [] memb_init.

Definition is_radio_on (e : effect) : bool :=
  match e with RADIO_on => true | _ => false end.

(** The number of times the node was restarted. *)
Definition resets (tr : list effect) : nat := List.length (filter is_radio_on tr).

(** The process woken up by events that are neither the button nor serial
    lines, at the given instants. *)
Fixpoint run_timers (evs : list Z) : M unit :=
  match evs with
  | [] => ret tt
  | now :: rest => process_event now Other ;; run_timers rest
  end.

(** Two "sleep" lines in a row, the first at [n1], the second at [n2]. *)
Definition sleep_twice (n1 : Z) (d1 : string) (n2 : Z) (d2 : string) (s : node) : node :=
  state_after (serial_handler n2 ("sleep " ++ d2))
    (state_after (serial_handler n1 ("sleep " ++ d1)) s).

(** What can happen to a running node: an announcement comes in, the timer
    of the entry at some position of the table fires, the multihop layer
    hands over a packet to forward or to deliver, or the process is woken up.
    A callback that faults has written nothing; a run that goes on after it
    goes on from the variables as they were. *)
Inductive event :=
| Announcement (now : Z) (from : linkaddr_t)
| Neighbor_timeout (position : nat)
| Packet_in_transit (r : Z) (packet : string)
| Packet_arrived (packet : string)
| Wake_up (now : Z) (ev : proc_event).

Definition handle (e : event) : M unit :=
  match e with
  | Announcement now from => received_announcement now from
  | Neighbor_timeout position =>
      tbl <- gets neighbor_table ;;
      match nth_error tbl position with
      | Some n => remove_neighbor n
      | None => ret tt
      end
  | Packet_in_transit r packet => forward r packet ;; ret tt
  | Packet_arrived packet => recv packet ;; ret tt
  | Wake_up now ev => process_event now ev
  end.

Fixpoint run (es : list event) : M unit :=
  match es with
  | [] => ret tt
  | e :: rest => handle e ;; run rest
  end.

(** The table and the pool fit together: the pool has its sixteen blocks,
    no two entries live in the same block or carry the same address, and
    the block of every entry is marked as used. *)
Definition wf (s : node) : Prop :=
  List.length (neighbor_mem s) = MAX_NEIGHBORS
  /\ NoDup (map blk (neighbor_table s))
  /\ NoDup (map addr (neighbor_table s))
  /\ Forall (fun e => nth_error (neighbor_mem s) (blk e) = Some true)
       (neighbor_table s).

(** What an announcement from [from] at [now] does to an entry. *)
Definition refreshed (now : Z) (from : linkaddr_t) (e : example_neighbor)
  : example_neighbor :=
  if linkaddr_cmp from (addr e)
  then set_ctimer (ctimer_set now NEIGHBOR_TIMEOUT) e
  else e.

(** Number of values [random_rand()] can take, 0 .. RANDOM_RAND_MAX, with
    RANDOM_RAND_MAX = 65535 as in Contiki's lib/random.h (not part of
    src/). *)
Definition RANDOM_VALUES : Z := 65536.

(** The address [forward] returns when [random_rand()] yields [r]: [None]
    when it returns NULL, and when it does not return. *)
Definition forwarded (r : Z) (packet : string) (s : node) : option linkaddr_t :=
  match value_of (forward r packet) s with
  | Done a => a
  | Fault => None
  end.

(** A node that has heard from 1.0, 2.0 and 3.0, in this order. *)
Definition three_neighbors : node :=
  state_after (received_announcement 0 (mk_addr 3 0))
    (state_after (received_announcement 0 (mk_addr 2 0))
       (state_after (received_announcement 0 (mk_addr 1 0)) boot)).

(** A node that has heard from 1.0, 2.0, ... and 16.0, in this order: every
    block of its pool is in use. *)
Definition sixteen_neighbors : node :=
  fold_left (fun s n => state_after (received_announcement 0 (mk_addr (Z.of_nat n) 0)) s)
    (seq 1 MAX_NEIGHBORS) boot.

Definition addr_eqb (a : option linkaddr_t) (b : linkaddr_t) : bool :=
  match a with
  | Some x => linkaddr_cmp x b
  | None => false
  end.

(** Two "sleep" lines, the first at [n1], the second at [n2], and what
    happens to the node in between. *)
Definition sleep_again (n1 : Z) (d1 : string) (mid : list event)
    (n2 : Z) (d2 : string) (s : node) : node :=
  state_after (serial_handler n2 ("sleep " ++ d2))
    (state_after (run mid)
       (state_after (serial_handler n1 ("sleep " ++ d1)) s)).

(** An event that is not a line typed by the operator. *)
Definition no_command (e : event) : Prop :=
  match e with
  | Wake_up _ (Serial_line (Some _)) => False
  | _ => True
  end.

(** An event that, if it is a wake-up of the process, comes before tick
    [due]. *)
Definition before (due : Z) (e : event) : Prop :=
  match e with
  | Wake_up now _ => now < due
  | _ => True
  end.



(** Among the values [0 .. m-1] of [random_rand()], how many make [forward]
    return the address [a]. *)
Definition chances (m : Z) (packet : string) (s : node) (a : linkaddr_t) : Z :=
  Z.of_nat
    (List.length
       (filter (fun r => addr_eqb (forwarded (Z.of_nat r) packet s) a)
          (seq 0 (Z.to_nat m)))).

End RmhFw.

(** ** What is observed of a run *)

Module Obs.

Import TrickleFw Eff.

Definition is_log (e : effect) : bool :=
  match e with LOG _ _ => true | _ => false end.

(** The trace without its log lines: assignments to the token, signals to
    the engine, transmissions, radio and LED control. *)
Definition protocol (tr : list effect) : list effect :=
  filter (fun e => negb (is_log e)) tr.

Definition is_signal (e : effect) : bool :=
  match e with TT_consistency | TT_inconsistency | TT_reset_event => true | _ => false end.

(** The signals given to the Trickle engine. *)
Definition signals (tr : list effect) : list effect := filter is_signal tr.

Definition is_send (e : effect) : bool :=
  match e with UDP_send _ => true | _ => false end.

(** The packets sent. *)
Definition sends (tr : list effect) : list effect := filter is_send tr.

(** Did the handler take the peer's token for its own? *)
Definition adopted (tr : list effect) : bool :=
  existsb (fun e => match e with TOKEN_assign _ => true | _ => false end) tr.

(** Receipt of a packet whose first byte is [theirs]. *)
Definition on_receive (theirs : Z) (s : node) : node * list effect :=
  (state_after (tcpip_handler (Some theirs)) s,
   trace_of (tcpip_handler (Some theirs)) s).

(** Two nodes that differ at most in the sink flag. *)
Definition same_but_sink (s1 s2 : node) : Prop :=
  set_is_sink false s1 = set_is_sink false s2.

(** What happens to a node: its process is woken up with an event (a
    packet, a serial line, a timer) at tick [now], [r] being the value
    [random_rand()] would return, or the engine calls the transmit
    callback. *)
Inductive net_event :=
| Woken (now r : Z) (ev : proc_event)
| Transmit (suppress : Z).

Definition net_step (ev : net_event) : TrickleFw.M unit :=
  match ev with
  | Woken now r ev => process_event now r ev
  | Transmit suppress => trickle_tx suppress
  end.

Fixpoint run_net (evs : list net_event) : TrickleFw.M unit :=
  match evs with
  | [] => ret tt
  | ev :: rest => bind (net_step ev) (fun _ => run_net rest)
  end.

(** A handler on which the sink flag has no bearing: on two nodes that
    differ at most in the flag it returns the same value, leaves the same
    trace but for the log lines, and leaves two nodes that differ at most
    in the flag. *)
Definition sink_inert {A} (m : TrickleFw.M A) : Prop :=
  forall s1 s2, same_but_sink s1 s2 ->
    value_of m s1 = value_of m s2
    /\ protocol (trace_of m s1) = protocol (trace_of m s2)
    /\ same_but_sink (state_after m s1) (state_after m s2).

(** The number of times the node was restarted: [restart_node] is the
    only place that turns the radio back on. *)
Definition is_radio_on (e : effect) : bool :=
  match e with RADIO_on => true | _ => false end.

Definition resets (tr : list effect) : nat := List.length (filter is_radio_on tr).

(** The process woken up by events that are neither packets nor serial
    lines, at the given instants and with the given random values. *)
Fixpoint run_timers (evs : list (Z * Z)) : TrickleFw.M unit :=
  match evs with
  | [] => ret tt
  | (now, r) :: rest =>
      bind (process_event now r Other) (fun _ => run_timers rest)
  end.

(** Two "sleep" lines in a row, the first at [n1], the second at [n2]. *)
Definition sleep_twice (n1 : Z) (d1 : string) (n2 : Z) (d2 : string) (s : node) : node :=
  state_after (serial_handler n2 ("sleep " ++ d2))
    (state_after (serial_handler n1 ("sleep " ++ d1)) s).

(** Two "sleep" lines, the first at [n1], the second at [n2], and what
    happens to the node in between. *)
Definition sleep_again (n1 : Z) (d1 : string) (mid : list net_event)
    (n2 : Z) (d2 : string) (s : node) : node :=
  state_after (serial_handler n2 ("sleep " ++ d2))
    (state_after (run_net mid)
       (state_after (serial_handler n1 ("sleep " ++ d1)) s)).

(** The relation the handler tests with, read as a relation between two
    token values: [a] is newer than [b] when a node holding [b] that
    receives [a] takes the branch "theirs is newer". *)
Definition newer (a b : Z) : bool := theirs_is_newer b a.

End Obs.

(** The serial-number rule in the words of section 3 of the specification:
    [a] is newer than [b] iff [(a - b) mod 256], read as a signed 8-bit
    value, is negative. *)
Module SpecWords.

Definition newer (a b : Z) : bool := C.signed_char ((a - b) mod 256) <? 0.

End SpecWords.

(** ** Two nodes in range of each other, and runs of one node *)

Module Runs.

Import TrickleFw Eff Obs.

(** A value that fits the [uint8_t] of a token or of a payload byte. *)
Definition byte (z : Z) : Prop := 0 <= z < 256.

(** What a node in range reads of the packets a trace sends: for each
    packet, [((uint8_t * ) uip_appdata)[0]]. *)
Definition heard (tr : list effect) : list Z :=
  flat_map (fun e => match e with UDP_send p => [nth 0 p 0] | _ => [] end) tr.

(** One call of [tcpip_handler] for each packet that arrives. *)
Fixpoint receive_all (packets : list Z) : TrickleFw.M unit :=
  match packets with
  | [] => ret tt
  | b :: rest => bind (tcpip_handler (Some b)) (fun _ => receive_all rest)
  end.

(** Node [b] after the engine of node [a] has called [a]'s callback with
    the flag to transmit, and what [a] sent, if anything, has reached [b]. *)
Definition hears (a b : node) : node :=
  state_after
    (receive_all (heard (trace_of (trickle_tx TRICKLE_TIMER_TX_OK) a))) b.

(** An event whose packet, if it is one, starts with a byte. *)
Definition byte_event (ev : net_event) : Prop :=
  match ev with
  | Woken _ _ (Tcpip (Some b)) => byte b
  | _ => True
  end.

(** A call that, if it sends, sends one byte. *)
Definition one_byte_send (e : effect) : Prop :=
  match e with
  | UDP_send p => exists b, p = [b] /\ byte b
  | _ => True
  end.

(** A handler that leaves a byte in [token] if it finds one there, and
    sends nothing but single bytes. *)
Definition byte_safe {A} (m : TrickleFw.M A) : Prop :=
  forall s, byte (token s) ->
    byte (token (state_after m s)) /\ Forall one_byte_send (trace_of m s).

(** An event that is not a line typed by the operator. *)
Definition no_command (ev : net_event) : Prop :=
  match ev with
  | Woken _ _ (Serial_line (Some _)) => False
  | _ => True
  end.

(** An event that, if it is a wake-up of the process, comes before tick
    [due]; the callback of the engine carries no tick. *)
Definition before (due : Z) (ev : net_event) : Prop :=
  match ev with
  | Woken now _ _ => now < due
  | Transmit _ => True
  end.

End Runs.

(** * Properties *)

(** ** Receipt of a token *)

Section Receipt.

Import C Eff TrickleFw Obs.

Lemma signed_char_mod (z : Z) : signed_char (z mod 256) = signed_char z.
Proof.
  unfold signed_char.
  rewrite <- (Zplus_mod_idemp_l z 128 256). reflexivity.
Qed.

Lemma theirs_is_newer_spec (ours theirs : Z) :
  theirs_is_newer ours theirs = SpecWords.newer ours theirs.
Proof.
  unfold theirs_is_newer, SpecWords.newer. now rewrite signed_char_mod.
Qed.

Lemma theirs_is_newer_distance (ours theirs : Z) :
  0 <= ours < 256 -> 0 <= theirs < 256 ->
  theirs_is_newer ours theirs = true <-> 1 <= (theirs - ours) mod 256 <= 128.
Proof.
  intros Ho Ht. unfold theirs_is_newer, signed_char.
  rewrite Z.ltb_lt.
  split; intros H; Z.div_mod_to_equations; lia.
Qed.

(** The three ways through [tcpip_handler] when there is new data. *)
Lemma on_receive_cases (theirs : Z) (s : node) :
  on_receive theirs s =
    if token s =? theirs then
      (s, [LOG (if is_sink s then "Sink recv'd at %lu (I=%lu, c=%u): "
                else "At %lu (I=%lu, c=%u): ") [];
           LOG "Our token=0x%02x, theirs=0x%02x\n" [token s; theirs];
           LOG "Consistent RX\n" []; TT_consistency])
    else if theirs_is_newer (token s) theirs then
      (set_token theirs s,
       [LOG (if is_sink s then "Sink recv'd at %lu (I=%lu, c=%u): "
             else "At %lu (I=%lu, c=%u): ") [];
        LOG "Our token=0x%02x, theirs=0x%02x\n" [token s; theirs];
        LOG "Theirs is newer. Update\n" []; TOKEN_assign theirs;
        TT_inconsistency;
        LOG "At %lu: Trickle inconsistency. Scheduled TX for %lu\n" []])
    else
      (s, [LOG (if is_sink s then "Sink recv'd at %lu (I=%lu, c=%u): "
                else "At %lu (I=%lu, c=%u): ") [];
           LOG "Our token=0x%02x, theirs=0x%02x\n" [token s; theirs];
           LOG "They are behind\n" []; TT_inconsistency;
           LOG "At %lu: Trickle inconsistency. Scheduled TX for %lu\n" []]).
Proof.
  unfold on_receive, state_after, trace_of, tcpip_handler.
  unfold bind, gets, emit, modify, ret.
  destruct (is_sink s); cbn;
    destruct (token s =? theirs); cbn; try reflexivity;
    destruct (theirs_is_newer (token s) theirs); reflexivity.
Qed.

(** C1, as amended.  The handler takes the peer's token exactly when
    [(local - peer) mod 256], read as a signed 8-bit value, is negative,
    that is when the peer's token is 1 to 128 steps ahead of the local one
    modulo 256.  The rule of section 3 holds with the local token as its
    first operand and the peer's as its second: the value the handler calls
    newer is the one the rule, read literally, calls older.  After the
    receipt the local token is the peer's if it was taken, and unchanged
    otherwise. *)
Theorem C1_adopts_iff_local_minus_peer_negative (s : node) (theirs : Z) :
  0 <= token s < 256 -> 0 <= theirs < 256 ->
  (adopted (snd (on_receive theirs s)) = true
     <-> SpecWords.newer (token s) theirs = true)
  /\ (adopted (snd (on_receive theirs s)) = true
     <-> 1 <= (theirs - token s) mod 256 <= 128)
  /\ token (fst (on_receive theirs s))
     = (if adopted (snd (on_receive theirs s)) then theirs else token s).
Proof.
  intros Ho Ht.
  pose proof (theirs_is_newer_distance (token s) theirs Ho Ht) as Hd.
  rewrite <- theirs_is_newer_spec.
  rewrite on_receive_cases.
  destruct (token s =? theirs) eqn:E.
  - apply Z.eqb_eq in E. cbn.
    assert (Hn : theirs_is_newer (token s) theirs = false).
    { rewrite E. unfold theirs_is_newer. now rewrite Z.sub_diag. }
    rewrite Hn in *. intuition congruence.
  - destruct (theirs_is_newer (token s) theirs) eqn:N; cbn.
    + intuition congruence.
    + intuition congruence.
Qed.

(** With local token 250 and peer token 5 the peer's token is taken: 5 is
    the newer of the two. *)
Lemma C1_adopts_witness :
  (0 <= token (set_token 250 boot) < 256 /\ 0 <= 5 < 256)
  /\ (adopted (snd (on_receive 5 (set_token 250 boot))) = true
      <-> SpecWords.newer (token (set_token 250 boot)) 5 = true)
  /\ (adopted (snd (on_receive 5 (set_token 250 boot))) = true
      <-> 1 <= (5 - token (set_token 250 boot)) mod 256 <= 128)
  /\ token (fst (on_receive 5 (set_token 250 boot)))
     = (if adopted (snd (on_receive 5 (set_token 250 boot)))
        then 5 else token (set_token 250 boot)).
Proof.
  split.
  - simpl. lia.
  - apply (C1_adopts_iff_local_minus_peer_negative (set_token 250 boot) 5);
      simpl; lia.
Defined.

(** C1 as stated fails.  A node holding 250 that receives 5 takes the 5,
    although [(5 - 250) mod 256 = 11] is not negative as a signed byte; a
    node holding 5 that receives 250 keeps its 5, although
    [(250 - 5) mod 256 = 245] is negative as a signed byte.  In the relation
    the handler tests with, 5 is newer than 250 and 250 is not newer
    than 5. *)
Lemma C1_counterexample :
  adopted (snd (on_receive 5 (set_token 250 boot))) = true
  /\ SpecWords.newer 5 250 = false
  /\ adopted (snd (on_receive 250 (set_token 5 boot))) = false
  /\ SpecWords.newer 250 5 = true
  /\ Obs.newer 5 250 = true
  /\ Obs.newer 250 5 = false
  /\ ~ (adopted (snd (on_receive 5 (set_token 250 boot))) = true
        <-> SpecWords.newer 5 (token (set_token 250 boot)) = true).
Proof.
  repeat split; try (vm_compute; reflexivity).
  intros [H _]. vm_compute in H. specialize (H eq_refl). discriminate H.
Qed.

(** C2, as amended.  Equal tokens: the consistency signal and nothing
    else.  Peer newer: the token is assigned, then the inconsistency signal
    is given.  Peer not newer: the inconsistency signal and nothing else, and
    the node is as it was; in that case the local token is the newer one. *)
Theorem C2_receive_signals (s : node) (p : Z) :
  0 <= token s < 256 -> 0 <= p < 256 ->
  (p = token s ->
     protocol (snd (on_receive p s)) = [TT_consistency]
     /\ fst (on_receive p s) = s)
  /\ (p <> token s -> Obs.newer p (token s) = true ->
     protocol (snd (on_receive p s)) = [TOKEN_assign p; TT_inconsistency]
     /\ fst (on_receive p s) = set_token p s)
  /\ (p <> token s -> Obs.newer p (token s) = false ->
     protocol (snd (on_receive p s)) = [TT_inconsistency]
     /\ fst (on_receive p s) = s
     /\ Obs.newer (token s) p = true).
Proof.
  intros Ho Hp. unfold Obs.newer. rewrite on_receive_cases.
  repeat split.
  - rewrite H, Z.eqb_refl. reflexivity.
  - rewrite H, Z.eqb_refl. reflexivity.
  - assert (E : (token s =? p) = false) by (apply Z.eqb_neq; congruence).
    rewrite E, H0. reflexivity.
  - assert (E : (token s =? p) = false) by (apply Z.eqb_neq; congruence).
    rewrite E, H0. reflexivity.
  - assert (E : (token s =? p) = false) by (apply Z.eqb_neq; congruence).
    rewrite E, H0. reflexivity.
  - assert (E : (token s =? p) = false) by (apply Z.eqb_neq; congruence).
    rewrite E, H0. reflexivity.
  - apply theirs_is_newer_distance; try assumption.
    assert (N : ~ (1 <= (p - token s) mod 256 <= 128)).
    { intros C. apply theirs_is_newer_distance in C; try assumption. congruence. }
    Z.div_mod_to_equations. lia.
Qed.

(** The three cases at work: a node holding 0 receives 0, then 1, and a
    node holding 1 receives 0. *)
Lemma C2_receive_signals_witness :
  (protocol (snd (on_receive 0 boot)) = [TT_consistency]
   /\ fst (on_receive 0 boot) = boot)
  /\ (protocol (snd (on_receive 1 boot)) = [TOKEN_assign 1; TT_inconsistency]
      /\ fst (on_receive 1 boot) = set_token 1 boot)
  /\ (protocol (snd (on_receive 0 (set_token 1 boot))) = [TT_inconsistency]
      /\ fst (on_receive 0 (set_token 1 boot)) = set_token 1 boot
      /\ Obs.newer (token (set_token 1 boot)) 0 = true).
Proof.
  destruct (C2_receive_signals boot 0) as (Eq & _ & _); [simpl; lia | lia |].
  destruct (C2_receive_signals boot 1) as (_ & Nw & _); [simpl; lia | lia |].
  destruct (C2_receive_signals (set_token 1 boot) 0) as (_ & _ & Ol);
    [simpl; lia | lia |].
  split; [| split].
  - apply Eq. reflexivity.
  - apply Nw; [discriminate | reflexivity].
  - apply Ol; [discriminate | reflexivity].
Defined.

(** C2 as stated fails when the two tokens are 128 apart.  Each of 0 and
    128 is newer than the other in the relation the handler tests with, and
    a node holding 0 that receives 128 takes the 128: the local token is
    newer and is changed all the same. *)
Lemma C2_counterexample :
  128 <> token boot
  /\ Obs.newer (token boot) 128 = true
  /\ Obs.newer 128 (token boot) = true
  /\ protocol (snd (on_receive 128 boot)) = [TOKEN_assign 128; TT_inconsistency]
  /\ token (fst (on_receive 128 boot)) = 128
  /\ ~ (128 <> token boot -> Obs.newer (token boot) 128 = true ->
        signals (snd (on_receive 128 boot)) = [TT_inconsistency]
        /\ token (fst (on_receive 128 boot)) = token boot).
Proof.
  repeat split; try (vm_compute; reflexivity).
  - discriminate.
  - intros H.
    assert (A : 128 <> token boot) by discriminate.
    destruct (H A eq_refl) as [_ T]. vm_compute in T. discriminate T.
Qed.

(** ** The transmit callback and the sink flag *)

Lemma trace_of_bind {S E A B} (m : Eff.M S E A) (f : A -> Eff.M S E B) (s : S) :
  trace_of (bind m f) s
  = (trace_of m s ++ trace_of (f (value_of m s)) (state_after m s))%list.
Proof.
  unfold trace_of, value_of, state_after, bind.
  destruct (m s) as [[a s1] tr1]. cbn.
  destruct (f a s1) as [[b s2] tr2]. reflexivity.
Qed.

Lemma state_after_bind {S E A B} (m : Eff.M S E A) (f : A -> Eff.M S E B) (s : S) :
  state_after (bind m f) s = state_after (f (value_of m s)) (state_after m s).
Proof.
  unfold value_of, state_after, bind.
  destruct (m s) as [[a s1] tr1]. cbn.
  destruct (f a s1) as [[b s2] tr2]. reflexivity.
Qed.

Lemma value_of_bind {S E A B} (m : Eff.M S E A) (f : A -> Eff.M S E B) (s : S) :
  value_of (bind m f) s = value_of (f (value_of m s)) (state_after m s).
Proof.
  unfold value_of, state_after, bind.
  destruct (m s) as [[a s1] tr1]. cbn.
  destruct (f a s1) as [[b s2] tr2]. reflexivity.
Qed.

Lemma protocol_app (a b : list effect) :
  protocol (a ++ b) = (protocol a ++ protocol b)%list.
Proof. apply filter_app. Qed.

(** What [trickle_tx] does, case by case. *)
Lemma trickle_tx_cases (suppress : Z) (s : node) :
  trickle_tx suppress s =
    if ((suppress =? TRICKLE_TIMER_TX_SUPPRESS) || suppress_trickle s)%bool
    then (tt, s, [])
    else (tt, s, [LOG "At %lu (I=%lu, c=%u): " [];
                  LOG "Trickle TX token 0x%02x\n" [token s];
                  UDP_send [token s]]).
Proof.
  unfold trickle_tx, bind, gets, emit, ret. cbn.
  destruct ((suppress =? TRICKLE_TIMER_TX_SUPPRESS) || suppress_trickle s)%bool;
    reflexivity.
Qed.

(** C9.  The callback sends exactly when the engine's flag is not the
    suppress flag and the operator has not suppressed the node; what it
    sends is the one byte of the token; otherwise it does nothing at all.
    The node itself is never changed by the callback. *)
Theorem C9_trickle_tx_sends_iff_not_suppressed (s : node) (suppress : Z) :
  (sends (trace_of (trickle_tx suppress) s) <> []
     <-> suppress <> TRICKLE_TIMER_TX_SUPPRESS /\ suppress_trickle s = false)
  /\ protocol (trace_of (trickle_tx suppress) s)
     = (if (negb (suppress =? TRICKLE_TIMER_TX_SUPPRESS)
            && negb (suppress_trickle s))%bool
        then [UDP_send [token s]] else [])
  /\ (suppress = TRICKLE_TIMER_TX_SUPPRESS \/ suppress_trickle s = true
      <-> trace_of (trickle_tx suppress) s = [])
  /\ state_after (trickle_tx suppress) s = s.
Proof.
  unfold trace_of, state_after. rewrite trickle_tx_cases.
  destruct (suppress =? TRICKLE_TIMER_TX_SUPPRESS) eqn:E;
    [apply Z.eqb_eq in E | apply Z.eqb_neq in E];
    destruct (suppress_trickle s); cbn; repeat split;
    try congruence; try tauto; try (intros [? ?]; congruence);
    try (intros [? | ?]; congruence).
Qed.

Lemma same_but_sink_fields (s1 s2 : node) :
  same_but_sink s1 s2 ->
  token s1 = token s2 /\ suppress_trickle s1 = suppress_trickle s2.
Proof.
  unfold same_but_sink, set_is_sink. intros H. injection H. intros. auto.
Qed.

Lemma same_but_sink_set_token (v : Z) (s1 s2 : node) :
  same_but_sink s1 s2 -> same_but_sink (set_token v s1) (set_token v s2).
Proof.
  unfold same_but_sink, set_is_sink, set_token. cbn.
  intros H. injection H. intros. congruence.
Qed.

(** The building blocks of the handlers, none of which looks at the flag. *)
Lemma sink_inert_ret {A} (a : A) : sink_inert (ret a).
Proof. intros s1 s2 H. repeat split. exact H. Qed.

Lemma sink_inert_emit (e : effect) : sink_inert (emit e).
Proof. intros s1 s2 H. repeat split. exact H. Qed.

Lemma sink_inert_bind {A B} (m : TrickleFw.M A) (f : A -> TrickleFw.M B) :
  sink_inert m -> (forall a, sink_inert (f a)) -> sink_inert (bind m f).
Proof.
  intros Hm Hf s1 s2 H.
  destruct (Hm s1 s2 H) as (V & P & R).
  rewrite !value_of_bind, !trace_of_bind, !state_after_bind, !protocol_app, V.
  destruct (Hf (value_of m s2) _ _ R) as (V' & P' & R').
  repeat split; [exact V' | now rewrite P, P' | exact R'].
Qed.

Lemma sink_inert_gets {A} (f : node -> A) :
  (forall s, f (set_is_sink false s) = f s) -> sink_inert (gets f).
Proof.
  intros Hf s1 s2 H. repeat split; [| exact H].
  unfold value_of, gets. cbn. rewrite <- (Hf s1), <- (Hf s2). now rewrite H.
Qed.

Lemma sink_inert_modify (g : node -> node) :
  (forall s, set_is_sink false (g s) = set_is_sink false (g (set_is_sink false s))) ->
  sink_inert (modify g).
Proof.
  intros Hg s1 s2 H. repeat split.
  unfold state_after, modify, same_but_sink. cbn.
  rewrite (Hg s1), (Hg s2). now rewrite H.
Qed.

Ltac sink_inert_step :=
  first
    [ apply sink_inert_ret
    | apply sink_inert_emit
    | apply sink_inert_gets; reflexivity
    | apply sink_inert_modify; reflexivity
    | apply sink_inert_bind; [| intros ?]
    | match goal with
      | |- sink_inert (if ?b then _ else _) => destruct b
      | |- sink_inert (match ?x with _ => _ end) => destruct x
      end ].

Lemma trickle_init_sink_inert (now : Z) : sink_inert (trickle_init now).
Proof. unfold trickle_init. repeat sink_inert_step. Qed.

Lemma serial_loop_sink_inert (now : Z) (toks : list string) (l : locals) :
  sink_inert (serial_loop now toks l).
Proof.
  revert l. induction toks as [| ptr rest IH]; intros l; cbn [serial_loop].
  - apply sink_inert_ret.
  - unfold parse_init, parse_limit, parse_print, parse_set.
    repeat first [apply IH | apply trickle_init_sink_inert | sink_inert_step].
Qed.

Lemma serial_handler_sink_inert (now : Z) (data : string) :
  sink_inert (serial_handler now data).
Proof.
  unfold serial_handler.
  repeat first [apply serial_loop_sink_inert | sink_inert_step].
Qed.

Lemma timers_sink_inert (now r : Z) : sink_inert (timers now r).
Proof.
  unfold timers, restart_node.
  repeat first [apply trickle_init_sink_inert | sink_inert_step].
Qed.

(** On receipt the flag is read, and shows in the log lines only. *)
Lemma tcpip_handler_sink_inert (pkt : option Z) : sink_inert (tcpip_handler pkt).
Proof.
  intros s1 s2 H. destruct (same_but_sink_fields _ _ H) as [Ht Hs].
  split; [now destruct (value_of _ s1), (value_of _ s2) |].
  destruct pkt as [theirs |]; [| split; [reflexivity | exact H]].
  change (trace_of (tcpip_handler (Some theirs)) s1) with (snd (on_receive theirs s1)).
  change (trace_of (tcpip_handler (Some theirs)) s2) with (snd (on_receive theirs s2)).
  change (state_after (tcpip_handler (Some theirs)) s1) with (fst (on_receive theirs s1)).
  change (state_after (tcpip_handler (Some theirs)) s2) with (fst (on_receive theirs s2)).
  rewrite !on_receive_cases, <- Ht.
  destruct (token s1 =? theirs); [| destruct (theirs_is_newer (token s1) theirs)];
    cbn; split; try reflexivity; try assumption.
  now apply same_but_sink_set_token.
Qed.

Lemma trickle_tx_sink_inert (suppress : Z) : sink_inert (trickle_tx suppress).
Proof. unfold trickle_tx. repeat sink_inert_step. Qed.

Lemma net_step_sink_inert (ev : net_event) : sink_inert (net_step ev).
Proof.
  destruct ev as [now r [pkt | [data |] |] | suppress]; cbn [net_step process_event].
  - apply tcpip_handler_sink_inert.
  - apply serial_handler_sink_inert.
  - apply timers_sink_inert.
  - apply timers_sink_inert.
  - apply trickle_tx_sink_inert.
Qed.

Lemma run_net_sink_inert (evs : list net_event) : sink_inert (run_net evs).
Proof.
  induction evs as [| ev rest IH]; cbn [run_net].
  - apply sink_inert_ret.
  - apply sink_inert_bind; [apply net_step_sink_inert | intros _; exact IH].
Qed.

(** C10.  Two nodes that differ at most in [is_sink] and go through the
    same events (packets, serial lines, timers, transmit callbacks) hold the
    same token afterwards, have given the same signals to the engine in the
    same order and have sent the same packets; they still differ at most in
    [is_sink]. *)
Theorem C10_sink_flag_inert (evs : list net_event) (s1 s2 : node) :
  same_but_sink s1 s2 ->
  protocol (trace_of (run_net evs) s1) = protocol (trace_of (run_net evs) s2)
  /\ signals (trace_of (run_net evs) s1) = signals (trace_of (run_net evs) s2)
  /\ sends (trace_of (run_net evs) s1) = sends (trace_of (run_net evs) s2)
  /\ token (state_after (run_net evs) s1) = token (state_after (run_net evs) s2)
  /\ same_but_sink (state_after (run_net evs) s1) (state_after (run_net evs) s2).
Proof.
  intros H.
  destruct (run_net_sink_inert evs s1 s2 H) as (_ & P & Q).
  assert (Sg : forall tr, signals tr = signals (protocol tr)).
  { intros tr. unfold signals, protocol. induction tr as [| e tr IHtr]; [reflexivity |].
    cbn. destruct e; cbn; rewrite ?IHtr; reflexivity. }
  assert (Sd : forall tr, sends tr = sends (protocol tr)).
  { intros tr. unfold sends, protocol. induction tr as [| e tr IHtr]; [reflexivity |].
    cbn. destruct e; cbn; rewrite ?IHtr; reflexivity. }
  repeat split; try assumption.
  - now rewrite (Sg (trace_of _ s1)), (Sg (trace_of _ s2)), P.
  - now rewrite (Sd (trace_of _ s1)), (Sd (trace_of _ s2)), P.
  - now apply same_but_sink_fields.
Qed.

(** The same events on a sink and on a node that is not a sink: a
    consistent packet, a newer token, a serial line, a transmission. *)
Lemma C10_sink_flag_inert_witness :
  same_but_sink boot (set_is_sink true boot)
  /\ protocol (trace_of (run_net [Woken 1 0 (Tcpip (Some 0)); Woken 2 0 (Tcpip (Some 3));
                                  Woken 3 0 (Serial_line (Some "limit 9"));
                                  Transmit 1]) boot)
     = protocol (trace_of (run_net [Woken 1 0 (Tcpip (Some 0)); Woken 2 0 (Tcpip (Some 3));
                                    Woken 3 0 (Serial_line (Some "limit 9"));
                                    Transmit 1])
                   (set_is_sink true boot))
  /\ token (state_after (run_net [Woken 1 0 (Tcpip (Some 0)); Woken 2 0 (Tcpip (Some 3));
                                  Woken 3 0 (Serial_line (Some "limit 9"));
                                  Transmit 1]) boot)
     = token (state_after (run_net [Woken 1 0 (Tcpip (Some 0)); Woken 2 0 (Tcpip (Some 3));
                                    Woken 3 0 (Serial_line (Some "limit 9"));
                                    Transmit 1])
                (set_is_sink true boot)).
Proof.
  assert (H : same_but_sink boot (set_is_sink true boot)) by reflexivity.
  destruct (C10_sink_flag_inert
              [Woken 1 0 (Tcpip (Some 0)); Woken 2 0 (Tcpip (Some 3));
               Woken 3 0 (Serial_line (Some "limit 9")); Transmit 1] _ _ H)
    as (P & _ & _ & T & _).
  split; [exact H | split; [exact P | exact T]].
Defined.

(** The flag does show in the log. *)
Lemma sink_flag_changes_the_log :
  trace_of (tcpip_handler (Some 0)) boot
  <> trace_of (tcpip_handler (Some 0)) (set_is_sink true boot).
Proof. vm_compute. discriminate. Qed.

End Receipt.

(** ** Command lines *)

Section CommandLines.

Import C.

Lemma append_empty (s : string) : (s ++ "")%string = s.
Proof. induction s as [| c s IH]; cbn; [reflexivity | now rewrite IH]. Qed.

Lemma append_assoc (a b c : string) :
  ((a ++ b) ++ c)%string = (a ++ (b ++ c))%string.
Proof. induction a as [| x a IH]; cbn; [reflexivity | now rewrite IH]. Qed.

Lemma digit_not_space (c : ascii) : is_digit c = true -> Ascii.eqb c " " = false.
Proof.
  destruct c as [[] [] [] [] [] [] [] []]; vm_compute; congruence.
Qed.

(** A run of digits followed by a space is cut off as one token. *)
Lemma strtok_from_digits (x rest cur : string) :
  all_digits x = true ->
  strtok_from (x ++ String " " rest) cur =
    match (cur ++ x)%string with
    | EmptyString => strtok_from rest EmptyString
    | tok => tok :: strtok_from rest EmptyString
    end.
Proof.
  revert cur. induction x as [| c x IH]; intros cur H.
  - cbn. rewrite append_empty. destruct cur; reflexivity.
  - cbn in H. apply andb_prop in H. destruct H as [Hc Hx].
    cbn [append strtok_from]. rewrite (digit_not_space c Hc).
    rewrite (IH _ Hx), append_assoc. reflexivity.
Qed.

(** A run of digits at the end of the line is the last token. *)
Lemma strtok_from_digits_end (x cur : string) :
  all_digits x = true ->
  strtok_from x cur =
    match (cur ++ x)%string with
    | EmptyString => []
    | tok => [tok]
    end.
Proof.
  revert cur. induction x as [| c x IH]; intros cur H.
  - cbn. rewrite append_empty. destruct cur; reflexivity.
  - cbn in H. apply andb_prop in H. destruct H as [Hc Hx].
    cbn [strtok_from]. rewrite (digit_not_space c Hc).
    rewrite (IH _ Hx), append_assoc. reflexivity.
Qed.

Lemma numeric_all_digits (x : string) : numeric x = true -> all_digits x = true.
Proof. destruct x; [discriminate | trivial]. Qed.

Lemma strtok_numeric (x rest : string) :
  numeric x = true ->
  strtok_from (x ++ String " " rest) EmptyString = x :: strtok_from rest EmptyString.
Proof.
  intros H. rewrite strtok_from_digits by now apply numeric_all_digits.
  destruct x; [discriminate | reflexivity].
Qed.

Lemma strtok_numeric_end (x : string) :
  numeric x = true -> strtok_from x EmptyString = [x].
Proof.
  intros H. rewrite strtok_from_digits_end by now apply numeric_all_digits.
  destruct x; [discriminate | reflexivity].
Qed.

(** The tokens of "init A B C" and of "sleep D". *)
Lemma strtok_init_line (a b c : string) :
  numeric a = true -> numeric b = true -> numeric c = true ->
  strtok ("init " ++ a ++ " " ++ b ++ " " ++ c) = ["init"; a; b; c].
Proof.
  intros Ha Hb Hc. unfold strtok. cbn [append strtok_from Ascii.eqb Bool.eqb].
  change (" " ++ b ++ " " ++ c)%string with (String " " (b ++ String " " c)).
  rewrite (strtok_numeric a _ Ha), (strtok_numeric b _ Hb), (strtok_numeric_end c Hc).
  reflexivity.
Qed.

Lemma strtok_sleep_line (d : string) :
  numeric d = true -> strtok ("sleep " ++ d) = ["sleep"; d].
Proof.
  intros Hd. unfold strtok. cbn [append strtok_from Ascii.eqb Bool.eqb].
  rewrite (strtok_numeric_end d Hd). reflexivity.
Qed.

(** A numeric token is none of the words the handlers look for. *)
Lemma numeric_not_letter (x : string) (c : ascii) (w : string) :
  numeric x = true -> is_digit c = false -> streq x (String c w) = false.
Proof.
  intros Hx Hc. destruct x as [| d x]; [reflexivity |].
  cbn in Hx. apply andb_prop in Hx. destruct Hx as [Hd _].
  unfold streq. cbn [String.eqb].
  destruct (Ascii.eqb d c) eqn:E; [| reflexivity].
  apply Ascii.eqb_eq in E. congruence.
Qed.

End CommandLines.

(** ** The serial line of the trickle firmware *)

Section TrickleCommands.

Import C Etimer Eff TrickleFw Obs.

Lemma numeric_no_keyword (x : string) :
  numeric x = true ->
  streq x "init" = false /\ streq x "limit" = false /\ streq x "print" = false
  /\ streq x "sleep" = false /\ streq x "set" = false /\ streq x "sink" = false
  /\ streq x "source" = false.
Proof.
  intros H. repeat split; apply numeric_not_letter; trivial.
Qed.

Ltac not_keyword H :=
  let K := fresh "K" in
  pose proof (numeric_no_keyword _ H) as K;
  destruct K as (?K & ?K & ?K & ?K & ?K & ?K & ?K).

Ltac run_serial_loop :=
  cbn [serial_loop];
  unfold parse_init, parse_limit, parse_print, parse_sleep, parse_set;
  unfold bind, ret, modify, emit, gets;
  repeat match goal with H : streq _ _ = false |- _ => rewrite H; clear H end;
  cbn.

(** The line "init A B C": the word "init" itself is read as the first
    number, so [imax] becomes [strtol("init") = 0], A goes to [imin], B to
    [redundancy_const], and the loop is left before C is looked at. *)
Lemma serial_init_line (now : Z) (a b c : string) (s : node) :
  numeric a = true -> numeric b = true -> numeric c = true ->
  serial_handler now ("init " ++ a ++ " " ++ b ++ " " ++ c) s
  = (tt, set_redundancy_const (strtol b) (set_imin (strtol a) (set_imax 0 s)), []).
Proof.
  intros Ha Hb Hc. unfold serial_handler.
  rewrite strtok_init_line by assumption.
  not_keyword Ha. not_keyword Hb. not_keyword Hc.
  run_serial_loop. reflexivity.
Qed.

(** C4: what the code does on "init A B C".  The number of doublings is
    set to 0, the shortest interval to A and the redundancy constant to B;
    C is not read.  These are the values the next [trickle_init] hands to
    the engine. *)
Theorem C4_init_line_off_by_one_token (now : Z) (a b c : string) (s : node) :
  numeric a = true -> numeric b = true -> numeric c = true ->
  imax (state_after (serial_handler now ("init " ++ a ++ " " ++ b ++ " " ++ c)) s) = 0
  /\ imin (state_after (serial_handler now ("init " ++ a ++ " " ++ b ++ " " ++ c)) s)
     = strtol a
  /\ redundancy_const
       (state_after (serial_handler now ("init " ++ a ++ " " ++ b ++ " " ++ c)) s)
     = strtol b
  /\ forall later,
       trace_of (trickle_init later)
         (state_after (serial_handler now ("init " ++ a ++ " " ++ b ++ " " ++ c)) s)
       = [TT_config (strtol a) 0 (strtol b); TT_set].
Proof.
  intros Ha Hb Hc. unfold state_after.
  rewrite serial_init_line by assumption. cbn. auto.
Qed.

(** The line "init 10 16 2" on a freshly booted node: 0 doublings, a
    shortest interval of 10 and a redundancy constant of 16, where 10, 16
    and 2 were asked for. *)
Lemma C4_init_10_16_2 :
  (numeric "10" = true /\ numeric "16" = true /\ numeric "2" = true)
  /\ imax (state_after (serial_handler 0 "init 10 16 2") boot) = 0
  /\ imin (state_after (serial_handler 0 "init 10 16 2") boot) = 10
  /\ redundancy_const (state_after (serial_handler 0 "init 10 16 2") boot) = 16.
Proof.
  destruct (C4_init_line_off_by_one_token 0 "10" "16" "2" boot eq_refl eq_refl eq_refl)
    as (A & B & K & _).
  split; [repeat split | split; [exact A | split; [exact B | exact K]]].
Defined.

(** The line "sleep D" with D a number above 0, on any node. *)
Lemma serial_sleep_line (now : Z) (d : string) (s : node) :
  numeric d = true -> 0 < strtol d ->
  serial_handler now ("sleep " ++ d) s
  = (tt,
     set_reset_scheduled true
       (set_suppress_trickle true
          (set_rt (Some (now + strtol d * CLOCK_SECOND)) s)),
     [LOG "Restarting with delay of %ld seconds\n" [strtol d]; RADIO_off; LEDS_on]).
Proof.
  intros Hd Hpos. unfold serial_handler.
  rewrite strtok_sleep_line by assumption.
  not_keyword Hd.
  run_serial_loop.
  apply Z.ltb_lt in Hpos. rewrite Hpos. reflexivity.
Qed.

(** The line "print": the token is logged, the radio is turned off and the
    node is suppressed. *)
Lemma serial_print_line (now : Z) (s : node) :
  serial_handler now "print" s
  = (tt, set_suppress_trickle true s,
     [LOG "Seen print\n" []; LOG "Current token: %d\n" [token s]; RADIO_off]).
Proof. reflexivity. Qed.

(** After "print" or "sleep D" the callback sends nothing, whatever the
    flag the engine calls it with. *)
Lemma operator_suppression (now suppress : Z) (d : string) (s : node) :
  numeric d = true -> 0 < strtol d ->
  trace_of (trickle_tx suppress) (state_after (serial_handler now "print") s) = []
  /\ trace_of (trickle_tx suppress)
       (state_after (serial_handler now ("sleep " ++ d)) s) = [].
Proof.
  intros Hd Hpos. unfold state_after, trace_of.
  rewrite serial_print_line, serial_sleep_line by assumption.
  rewrite !trickle_tx_cases. cbn. now rewrite orb_true_r.
Qed.

End TrickleCommands.

(** ** Restart timers *)

Section TrickleRestart.

Import C Etimer Eff TrickleFw Obs.

(** The branches of the process for an event that is neither a packet nor
    a serial line. *)
Lemma timers_cases (now r : Z) (s : node) :
  timers now r s =
    if (etimer_expired now (et s) && is_source s)%bool then
      if ((r mod NEW_TOKEN_PROB =? 0) && (token s <? msg_limit s))%bool
      then (tt, set_et (Some (now + NEW_TOKEN_INTERVAL))
                  (set_token (uint8 (token s + 1)) s),
            [LOG "At %lu: Generating a new token 0x%02x\n" [uint8 (token s + 1)];
             TT_reset_event])
      else (tt, set_et (Some (now + NEW_TOKEN_INTERVAL)) s, [])
    else if (etimer_expired now (rt s) && reset_scheduled s)%bool then
      (tt, set_reset_scheduled false
             (set_rt None
                (set_et (Some (now + NEW_TOKEN_INTERVAL))
                   (set_suppress_trickle false (set_token 0 s)))),
       [LOG "Restarting node at time %lu\n" [];
        TT_config (imin s) (imax s) (redundancy_const s); TT_set;
        RADIO_on; LEDS_off])
    else (tt, s, []).
Proof.
  unfold timers, restart_node, trickle_init, bind, gets, modify, emit, ret,
    etimer_set, etimer_stop.
  cbn.
  destruct (etimer_expired now (et s) && is_source s)%bool; cbn.
  - destruct ((r mod NEW_TOKEN_PROB =? 0) && (token s <? msg_limit s))%bool;
      reflexivity.
  - destruct (etimer_expired now (rt s) && reset_scheduled s)%bool; reflexivity.
Qed.

(** One such event restarts the node at most once, and only a node whose
    restart is scheduled and due; a node that is not restarted keeps its
    restart timer and its schedule. *)
Lemma timers_resets (now r : Z) (s : node) :
  (resets (trace_of (timers now r) s) = 1%nat
   /\ reset_scheduled s = true /\ etimer_expired now (rt s) = true
   /\ reset_scheduled (state_after (timers now r) s) = false)
  \/ (resets (trace_of (timers now r) s) = 0%nat
      /\ reset_scheduled (state_after (timers now r) s) = reset_scheduled s
      /\ rt (state_after (timers now r) s) = rt s).
Proof.
  unfold trace_of, state_after. rewrite timers_cases.
  destruct (etimer_expired now (et s) && is_source s)%bool.
  - right. destruct ((r mod NEW_TOKEN_PROB =? 0) && (token s <? msg_limit s))%bool;
      cbn; auto.
  - destruct (etimer_expired now (rt s)) eqn:E; destruct (reset_scheduled s) eqn:R;
      cbn; auto.
Qed.

Lemma resets_app (a b : list effect) :
  resets (a ++ b) = (resets a + resets b)%nat.
Proof. unfold resets. now rewrite filter_app, length_app. Qed.

Lemma run_timers_cons (now r : Z) (rest : list (Z * Z)) (s : node) :
  resets (trace_of (run_timers ((now, r) :: rest)) s)
  = (resets (trace_of (timers now r) s)
     + resets (trace_of (run_timers rest) (state_after (timers now r) s)))%nat.
Proof.
  cbn [run_timers process_event]. now rewrite trace_of_bind, resets_app.
Qed.

(** No restart without a schedule. *)
Lemma run_timers_idle (evs : list (Z * Z)) (s : node) :
  reset_scheduled s = false -> resets (trace_of (run_timers evs) s) = 0%nat.
Proof.
  revert s. induction evs as [| [now r] rest IH]; intros s H; [reflexivity |].
  rewrite run_timers_cons.
  destruct (timers_resets now r s) as [(_ & R & _) | (Z0 & R & _)]; [congruence |].
  rewrite Z0, IH; [reflexivity | congruence].
Qed.

(** At most one restart, whatever the events. *)
Lemma run_timers_at_most_once (evs : list (Z * Z)) (s : node) :
  (resets (trace_of (run_timers evs) s) <= 1)%nat.
Proof.
  revert s. induction evs as [| [now r] rest IH]; intros s; [cbn; lia |].
  rewrite run_timers_cons.
  destruct (timers_resets now r s) as [(One & _ & _ & R) | (Z0 & _ & _)].
  - rewrite One, run_timers_idle by exact R. lia.
  - rewrite Z0. apply IH.
Qed.

(** No restart before the timer is due. *)
Lemma run_timers_not_before (e : Z) (evs : list (Z * Z)) (s : node) :
  rt s = Some e ->
  (forall m r, In (m, r) evs -> m < e) ->
  resets (trace_of (run_timers evs) s) = 0%nat.
Proof.
  revert s. induction evs as [| [now r] rest IH]; intros s Hrt Hb; [reflexivity |].
  rewrite run_timers_cons.
  destruct (timers_resets now r s) as [(_ & _ & X & _) | (Z0 & _ & T)].
  - rewrite Hrt in X. cbn in X. apply Z.leb_le in X.
    specialize (Hb now r (or_introl eq_refl)). lia.
  - rewrite Z0, IH; [reflexivity | congruence |].
    intros m r' Hin. apply (Hb m r'). now right.
Qed.


End TrickleRestart.

(** ** The serial line and the restart of the rmh firmware *)

Section RmhRestart.

Import C Etimer Eff RmhFw.

Lemma length_removelast (l : list example_neighbor) :
  List.length (removelast l) = pred (List.length l).
Proof.
  induction l as [| a [| b l] IH]; cbn in *; try reflexivity.
  now rewrite IH.
Qed.

(** With as many turns as the list is long, the chopping loop of [reset]
    runs to its end and leaves the list empty. *)
Lemma chop_loop_empties (fuel : nat) (l : list example_neighbor) :
  (List.length l <= fuel)%nat -> chop_loop fuel l = [].
Proof.
  revert l. induction fuel as [| fuel IH]; intros l H.
  - destruct l; [reflexivity | cbn in H; lia].
  - cbn [chop_loop]. destruct l as [| a l]; [reflexivity |].
    unfold list_length. cbn [List.length]. 
    replace (0 <? Z.of_nat (S (List.length l))) with true
      by (symmetry; apply Z.ltb_lt; lia).
    apply IH. unfold list_chop. rewrite length_removelast. cbn in *. lia.
Qed.

(** [reset] on a node that has a neighbor. *)
Lemma reset_with_neighbors (now delay : Z) (s : node) :
  neighbor_table s <> [] ->
  reset now delay s
  = (tt, mk_node None (Some (now + delay * CLOCK_SECOND)) true [] (neighbor_mem s),
     [MULTIHOP_close; ANNOUNCEMENT_remove; PACKETBUF_clear; RADIO_off;
      PRINTF "%d.%d: Crashing mote, restart in %ld seconds\n" [Int delay]]).
Proof.
  intros H. unfold reset, bind, gets, modify, emit, ret, etimer_set.
  cbn -[chop_loop list_length].
  assert (L : (0 <? list_length (neighbor_table s)) = true).
  { apply Z.ltb_lt. unfold list_length.
    destruct (neighbor_table s); [congruence | cbn [List.length]; lia]. }
  rewrite L. cbn -[chop_loop].
  rewrite chop_loop_empties by apply le_n.
  reflexivity.
Qed.

(** [reset] on a node without neighbors does nothing. *)
Lemma reset_without_neighbors (now delay : Z) (s : node) :
  neighbor_table s = [] -> reset now delay s = (tt, s, []).
Proof.
  intros H. unfold reset, bind, gets, modify, emit, ret. cbn. rewrite H. reflexivity.
Qed.

Lemma numeric_no_rmh_keyword (x : string) :
  numeric x = true -> streq x "sleep" = false /\ streq x "print" = false.
Proof. intros H. split; apply numeric_not_letter; trivial. Qed.


Lemma serial_loop_state (toks : list string) (l : locals) (s : node) :
  state_after (serial_loop toks l) s = s.
Proof.
  revert l s. induction toks as [| ptr rest IH]; intros l s; [reflexivity |].
  cbn [serial_loop]. rewrite state_after_bind, IH.
  unfold state_after, serial_body, bind, gets, emit, ret. cbn.
  destruct (streq ptr "print"); cbn;
    destruct (seen_print l); cbn; reflexivity.
Qed.




(** What an event that is neither the button nor a serial line does. *)
Lemma restart_if_due_cases (now : Z) (s : node) :
  restart_if_due now s =
    if (etimer_expired now (rt s) && reset_scheduled s)%bool
    then (tt, mk_node (Some EmptyString) None false [] memb_init,
          [PRINTF "Restarting node at time %lu\n" [Int now]; RADIO_on;
           MULTIHOP_open; ANNOUNCEMENT_register; ANNOUNCEMENT_set_value 0])
    else (tt, s, []).
Proof.
  unfold restart_if_due, restart_node, initialise, bind, gets, modify, emit, ret,
    etimer_stop.
  cbn. destruct (etimer_expired now (rt s) && reset_scheduled s)%bool; reflexivity.
Qed.

Lemma rmh_timers_resets (now : Z) (s : node) :
  (resets (trace_of (restart_if_due now) s) = 1%nat
   /\ reset_scheduled s = true /\ etimer_expired now (rt s) = true
   /\ reset_scheduled (state_after (restart_if_due now) s) = false)
  \/ (resets (trace_of (restart_if_due now) s) = 0%nat
      /\ state_after (restart_if_due now) s = s).
Proof.
  unfold trace_of, state_after. rewrite restart_if_due_cases.
  destruct (etimer_expired now (rt s)) eqn:E; destruct (reset_scheduled s) eqn:R;
    cbn; auto.
Qed.

Lemma rmh_resets_app (a b : list effect) :
  resets (a ++ b) = (resets a + resets b)%nat.
Proof. unfold resets. now rewrite filter_app, length_app. Qed.

Lemma rmh_run_timers_cons (now : Z) (rest : list Z) (s : node) :
  resets (trace_of (run_timers (now :: rest)) s)
  = (resets (trace_of (restart_if_due now) s)
     + resets (trace_of (run_timers rest) (state_after (restart_if_due now) s)))%nat.
Proof.
  cbn [run_timers process_event]. now rewrite trace_of_bind, rmh_resets_app.
Qed.

Lemma rmh_run_timers_idle (evs : list Z) (s : node) :
  reset_scheduled s = false -> resets (trace_of (run_timers evs) s) = 0%nat.
Proof.
  revert s. induction evs as [| now rest IH]; intros s H; [reflexivity |].
  rewrite rmh_run_timers_cons.
  destruct (rmh_timers_resets now s) as [(_ & R & _) | (Z0 & St)]; [congruence |].
  rewrite Z0, St, IH; [reflexivity | assumption].
Qed.

Lemma rmh_run_timers_at_most_once (evs : list Z) (s : node) :
  (resets (trace_of (run_timers evs) s) <= 1)%nat.
Proof.
  revert s. induction evs as [| now rest IH]; intros s; [cbn; lia |].
  rewrite rmh_run_timers_cons.
  destruct (rmh_timers_resets now s) as [(One & _ & _ & R) | (Z0 & St)].
  - rewrite One, rmh_run_timers_idle by exact R. lia.
  - rewrite Z0, St. apply IH.
Qed.

Lemma rmh_run_timers_not_before (e : Z) (evs : list Z) (s : node) :
  rt s = Some e ->
  (forall m, In m evs -> m < e) ->
  resets (trace_of (run_timers evs) s) = 0%nat.
Proof.
  revert s. induction evs as [| now rest IH]; intros s Hrt Hb; [reflexivity |].
  rewrite rmh_run_timers_cons.
  destruct (rmh_timers_resets now s) as [(_ & _ & X & _) | (Z0 & St)].
  - rewrite Hrt in X. cbn in X. apply Z.leb_le in X.
    specialize (Hb now (or_introl eq_refl)). lia.
  - rewrite Z0, St, IH; [reflexivity | assumption |].
    intros m Hin. apply (Hb m). now right.
Qed.

Lemma rmh_run_timers_when_due (e m : Z) (s : node) :
  rt s = Some e -> reset_scheduled s = true -> e <= m ->
  resets (trace_of (run_timers [m]) s) = 1%nat.
Proof.
  intros Hrt Hs Hle.
  rewrite rmh_run_timers_cons. unfold trace_of at 1.
  rewrite restart_if_due_cases, Hrt, Hs.
  cbn [etimer_expired]. apply Z.leb_le in Hle. rewrite Hle. reflexivity.
Qed.

End RmhRestart.

(** ** The interval of the Trickle engine *)

Section Interval.

Import Trickle.
Local Open Scope N_scope.

(** The configuration is never touched by an event. *)
Lemma step_config (tt : trickle_timer) (e : event) :
  i_min (step tt e) = i_min tt /\ i_max (step tt e) = i_max tt /\ k (step tt e) = k tt.
Proof.
  destruct e; cbn; unfold reset, signal_inconsistent;
    try destruct (i_min tt <? i_cur tt); cbn; auto.
Qed.

Lemma pow2_pos (n : N) : 1 <= 2 ^ n.
Proof.
  assert (H : 2 ^ n <> 0) by (apply N.pow_nonzero; discriminate). lia.
Qed.

Lemma start_in_bounds (imin imax kk r : N) : in_bounds (start imin imax kk r).
Proof.
  unfold in_bounds. cbn. pose proof (pow2_pos imax). nia.
Qed.

(** Every event keeps the interval between its bounds. *)
Lemma step_in_bounds (tt : trickle_timer) (e : event) :
  in_bounds tt -> in_bounds (step tt e).
Proof.
  unfold in_bounds. intros [Lo Hi].
  pose proof (pow2_pos (i_max tt)) as P.
  assert (Top : i_min tt <= i_min tt * 2 ^ i_max tt) by nia.
  destruct e as [| r | r | r]; unfold step.
  - split; assumption.
  - unfold signal_inconsistent.
    destruct (i_min tt <? i_cur tt); unfold new_interval;
      cbn [i_cur i_min i_max]; split; try assumption; lia.
  - unfold reset, signal_inconsistent.
    destruct (i_min tt <? i_cur tt); unfold new_interval;
      cbn [i_cur i_min i_max]; split; try assumption; lia.
  - unfold interval_end, new_interval, i_max_abs. cbn [i_cur i_min i_max]. split.
    + apply N.min_glb; [lia | assumption].
    + apply N.le_min_r.
Qed.

Lemma run_in_bounds (es : list event) (tt : trickle_timer) :
  in_bounds tt -> in_bounds (run tt es).
Proof.
  revert tt. induction es as [| e es IH]; intros tt H; [exact H |].
  change (run tt (e :: es)) with (run (step tt e) es).
  apply IH. now apply step_in_bounds.
Qed.

Lemma run_config (es : list event) (tt : trickle_timer) :
  i_min (run tt es) = i_min tt /\ i_max (run tt es) = i_max tt.
Proof.
  revert tt. induction es as [| e es IH]; intros tt; [split; reflexivity |].
  change (run tt (e :: es)) with (run (step tt e) es).
  destruct (IH (step tt e)) as [A B]. destruct (step_config tt e) as (C & D & _).
  split; congruence.
Qed.

(** C3.  An engine started with shortest interval [imin] and [imax]
    doublings, after any sequence of consistency signals, inconsistency
    signals, resets and interval ends, has its current interval between
    [imin] and [imin * 2^imax]. *)
Theorem C3_interval_within_bounds (imin imax kk r : N) (es : list event) :
  imin <= i_cur (run (start imin imax kk r) es)
  /\ i_cur (run (start imin imax kk r) es) <= imin * 2 ^ imax.
Proof.
  pose proof (run_in_bounds es _ (start_in_bounds imin imax kk r)) as [Lo Hi].
  destruct (run_config es (start imin imax kk r)) as [A B].
  rewrite A, B in *. cbn in *. split; assumption.
Qed.

(** The interval does reach both bounds: 16 at the start and after an
    inconsistency, 16 * 2^2 = 64 after two interval ends, and still 64
    after a third. *)
Lemma interval_reaches_bounds :
  i_cur (run (start 16 2 1 0) []) = 16
  /\ i_cur (run (start 16 2 1 0) [IntervalEnd 0; IntervalEnd 0]) = 64
  /\ i_cur (run (start 16 2 1 0) [IntervalEnd 0; IntervalEnd 0; IntervalEnd 0]) = 64
  /\ i_cur (run (start 16 2 1 0) [IntervalEnd 0; Consistent; Inconsistent 5]) = 16.
Proof. repeat split. Qed.

(** The transmission instant is drawn from the upper half of the interval. *)
Lemma draw_t_upper_half (i r : N) : 0 < i -> i / 2 <= draw_t i r /\ draw_t i r < i.
Proof.
  intros H. unfold draw_t.
  destruct (i =? 0) eqn:E; [apply N.eqb_eq in E; lia |].
  assert (Hh : i / 2 < i) by (apply N.div_lt; lia).
  assert (D : i - i / 2 <> 0) by lia.
  pose proof (N.mod_lt r _ D) as M.
  split; [apply N.le_add_r |].
  apply N.lt_le_trans with (i / 2 + (i - i / 2)); [| lia].
  now apply N.add_lt_mono_l.
Qed.

End Interval.

(** ** The neighbor table *)

Section NeighborTable.

Import C Etimer Eff RmhFw.

Lemma linkaddr_cmp_eq (a b : linkaddr_t) : linkaddr_cmp a b = true <-> a = b.
Proof.
  destruct a as [a0 a1], b as [b0 b1]. unfold linkaddr_cmp. cbn.
  rewrite andb_true_iff, !Z.eqb_eq. split.
  - intros [-> ->]. reflexivity.
  - intros H. injection H. auto.
Qed.

Lemma linkaddr_cmp_neq (a b : linkaddr_t) : linkaddr_cmp a b = false <-> a <> b.
Proof.
  rewrite <- linkaddr_cmp_eq. destruct (linkaddr_cmp a b); split; congruence.
Qed.

(** The search of [received_announcement] fails exactly on an address
    that is not in the table. *)
Lemma refresh_none (now : Z) (from : linkaddr_t) (l : list example_neighbor) :
  refresh now from l = None <-> ~ In from (map addr l).
Proof.
  induction l as [| e l IH]; cbn.
  - tauto.
  - destruct (linkaddr_cmp from (addr e)) eqn:E.
    + apply linkaddr_cmp_eq in E. split; [discriminate | intuition congruence].
    + apply linkaddr_cmp_neq in E.
      destruct (refresh now from l) eqn:R.
      * split; [discriminate |]. intros H.
        assert (N : ~ In from (map addr l)) by tauto.
        apply IH in N. discriminate N.
      * split; [| reflexivity]. intros _ [C | C]; [congruence |].
        now apply (proj1 IH).
Qed.

Lemma refresh_found (now : Z) (from : linkaddr_t) (l l' : list example_neighbor) :
  refresh now from l = Some l' -> In from (map addr l).
Proof.
  revert l'. induction l as [| e l IH]; cbn; intros l' H; [discriminate |].
  destruct (linkaddr_cmp from (addr e)) eqn:E.
  - apply linkaddr_cmp_eq in E. now left.
  - destruct (refresh now from l) as [r |]; [| discriminate].
    right. now apply (IH r).
Qed.

Lemma refreshed_absent (now : Z) (from : linkaddr_t) (l : list example_neighbor) :
  ~ In from (map addr l) -> map (refreshed now from) l = l.
Proof.
  induction l as [| e l IH]; cbn; intros H; [reflexivity |].
  unfold refreshed at 1.
  replace (linkaddr_cmp from (addr e)) with false
    by (symmetry; apply linkaddr_cmp_neq; intuition congruence).
  rewrite IH by tauto. reflexivity.
Qed.

(** In a table without duplicate addresses the search refreshes the entry
    of [from] and leaves every other entry as it is. *)
Lemma refresh_some (now : Z) (from : linkaddr_t) (l : list example_neighbor) :
  NoDup (map addr l) -> In from (map addr l) ->
  refresh now from l = Some (map (refreshed now from) l).
Proof.
  induction l as [| e l IH]; cbn; intros ND H; [contradiction |].
  inversion ND as [| x xs Hx ND' Heq]; subst.
  unfold refreshed at 1.
  destruct (linkaddr_cmp from (addr e)) eqn:E.
  - apply linkaddr_cmp_eq in E. subst from.
    now rewrite refreshed_absent.
  - apply linkaddr_cmp_neq in E.
    rewrite IH; [reflexivity | assumption | intuition congruence].
Qed.

Lemma map_blk_refreshed (now : Z) (from : linkaddr_t) (l : list example_neighbor) :
  map blk (map (refreshed now from) l) = map blk l
  /\ map addr (map (refreshed now from) l) = map addr l.
Proof.
  rewrite !map_map. split; apply map_ext; intros e; unfold refreshed;
    destruct (linkaddr_cmp from (addr e)); reflexivity.
Qed.

(** Allocation fails exactly when every block is in use. *)
Lemma memb_alloc_none (m : list bool) : memb_alloc m = None <-> ~ In false m.
Proof.
  induction m as [| u m IH]; cbn.
  - tauto.
  - destruct u.
    + destruct (memb_alloc m) as [[i m'] |]; split; intros H.
      * discriminate.
      * exfalso. assert (N : ~ In false m) by (intros C; apply H; now right).
        apply IH in N. discriminate.
      * intros [C | C]; [discriminate | now apply (proj1 IH)].
      * reflexivity.
    + split; [discriminate | intros H; exfalso; apply H; now left].
Qed.

(** A successful allocation hands out a block that was free, marks it, and
    leaves the other blocks alone. *)
Lemma memb_alloc_some (m m' : list bool) (i : nat) :
  memb_alloc m = Some (i, m') ->
  nth_error m i = Some false
  /\ nth_error m' i = Some true
  /\ (forall j, j <> i -> nth_error m' j = nth_error m j)
  /\ List.length m' = List.length m.
Proof.
  revert m' i. induction m as [| u m IH]; cbn; intros m' i H; [discriminate |].
  destruct u.
  - destruct (memb_alloc m) as [[i0 m0] |] eqn:A; [| discriminate].
    injection H as <- <-.
    destruct (IH _ _ eq_refl) as (F & T & O & L).
    repeat split; cbn; try assumption.
    + intros [| j] Hj; cbn; [reflexivity | apply O; congruence].
    + now rewrite L.
  - injection H as <- <-. repeat split.
    intros [| j] Hj; cbn; [congruence | reflexivity].
Qed.

(** Adding an entry whose block holds no entry yet appends it. *)
Lemma list_add_fresh (l : list example_neighbor) (e : example_neighbor) :
  ~ In (blk e) (map blk l) -> list_add l e = (l ++ [e])%list.
Proof.
  unfold list_add. intros H. f_equal.
  induction l as [| n l IH]; cbn in *; [reflexivity |].
  unfold same_block.
  destruct (Nat.eqb (blk e) (blk n)) eqn:E.
  - apply Nat.eqb_eq in E. exfalso. apply H. left. congruence.
  - rewrite IH by tauto. reflexivity.
Qed.

(** A table that fits its pool has at most as many entries as the pool has
    blocks. *)
Lemma wf_bounded (s : node) :
  wf s -> (List.length (neighbor_table s) <= MAX_NEIGHBORS)%nat.
Proof.
  intros (L & NB & _ & U).
  assert (K : (List.length (map blk (neighbor_table s))
               <= List.length (seq 0 MAX_NEIGHBORS))%nat).
  { apply NoDup_incl_length; [exact NB |].
    intros b Hb. apply in_map_iff in Hb. destruct Hb as (e & <- & He).
    rewrite Forall_forall in U. specialize (U e He).
    apply in_seq. split; [lia |]. cbn [Nat.add]. rewrite <- L.
    apply nth_error_Some. congruence. }
  now rewrite length_map, length_seq in K.
Qed.

Lemma boot_wf : wf boot.
Proof.
  unfold wf, boot. cbn. repeat split; constructor.
Qed.

(** The three ways through [received_announcement]. *)
Lemma received_announcement_cases (now : Z) (from : linkaddr_t) (s : node) :
  received_announcement now from s =
    match refresh now from (neighbor_table s) with
    | Some tbl' => (tt, set_neighbor_table tbl' s, [])
    | None =>
        match memb_alloc (neighbor_mem s) with
        | Some (i, mem') =>
            (tt, mk_node (data_buf s) (rt s) (reset_scheduled s)
                   (list_add (neighbor_table s)
                      (mk_neighbor i from (Some (now + NEIGHBOR_TIMEOUT))))
                   mem', [])
        | None => (tt, s, [])
        end
    end.
Proof.
  unfold received_announcement, bind, gets, modify, ret. cbn.
  destruct (refresh now from (neighbor_table s)); [reflexivity |].
  cbn. destruct (memb_alloc (neighbor_mem s)) as [[i mem'] |]; reflexivity.
Qed.

(** The announcement, case by case, on a node whose table fits its pool. *)
Lemma received_announcement_on_wf (now : Z) (from : linkaddr_t) (s : node) :
  wf s ->
  wf (state_after (received_announcement now from) s)
  /\ (In from (map addr (neighbor_table s)) ->
      state_after (received_announcement now from) s
      = set_neighbor_table (map (refreshed now from) (neighbor_table s)) s)
  /\ (~ In from (map addr (neighbor_table s)) -> In false (neighbor_mem s) ->
      exists i mem',
        nth_error (neighbor_mem s) i = Some false
        /\ nth_error mem' i = Some true
        /\ (forall j, j <> i -> nth_error mem' j = nth_error (neighbor_mem s) j)
        /\ state_after (received_announcement now from) s
           = mk_node (data_buf s) (rt s) (reset_scheduled s)
               (neighbor_table s
                  ++ [mk_neighbor i from (Some (now + NEIGHBOR_TIMEOUT))])
               mem')
  /\ (~ In from (map addr (neighbor_table s)) -> ~ In false (neighbor_mem s) ->
      state_after (received_announcement now from) s = s).
Proof.
  intros (L & NB & NA & U).
  unfold state_after. rewrite received_announcement_cases.
  destruct (refresh now from (neighbor_table s)) as [tbl' |] eqn:R.
  - assert (P : In from (map addr (neighbor_table s)))
      by apply (refresh_found now from _ tbl' R).
    rewrite (refresh_some now from _ NA P) in R. injection R as <-.
    destruct (map_blk_refreshed now from (neighbor_table s)) as [Mb Ma].
    cbn. repeat split.
    + exact L.
    + cbn. now rewrite Mb.
    + cbn. now rewrite Ma.
    + cbn. rewrite Forall_forall in *. intros e He.
      apply in_map_iff in He. destruct He as (e0 & <- & He0).
      specialize (U e0 He0). unfold refreshed.
      destruct (linkaddr_cmp from (addr e0)); exact U.
    + intros N _. contradiction.
    + intros N _. contradiction.
  - pose proof (proj1 (refresh_none now from _) R) as N.
    destruct (memb_alloc (neighbor_mem s)) as [[i mem'] |] eqn:A.
    + destruct (memb_alloc_some _ _ _ A) as (F & T & O & Lm).
      assert (Fresh : ~ In i (map blk (neighbor_table s))).
      { intros C. apply in_map_iff in C. destruct C as (e & <- & He).
        rewrite Forall_forall in U. specialize (U e He). congruence. }
      rewrite list_add_fresh by exact Fresh.
      cbn. repeat split.
      * cbn. congruence.
      * cbn. rewrite map_app. cbn.
        apply NoDup_app; [assumption | repeat constructor; tauto |].
        intros b Hb [<- | []]. exact (Fresh Hb).
      * cbn. rewrite map_app. cbn.
        apply NoDup_app; [assumption | repeat constructor; tauto |].
        intros a Ha [<- | []]. exact (N Ha).
      * cbn. apply Forall_app. split.
        -- rewrite Forall_forall in *. intros e He. rewrite O; [now apply U |].
           intros C. apply Fresh. rewrite <- C. now apply in_map.
        -- constructor; [exact T | constructor].
      * intros P. contradiction.
      * intros _ _. exists i, mem'. repeat split; assumption.
      * intros _ Full. apply memb_alloc_none in Full. congruence.
    + cbn. repeat split; try assumption.
      * intros P. contradiction.
      * intros _ Free. apply memb_alloc_none in A. contradiction.
Qed.

(** Announcements keep the table fitting the pool. *)
Lemma announcements_wf (now : Z) (l : list nat) (s : node) :
  wf s ->
  wf (fold_left
        (fun s n => state_after (received_announcement now (mk_addr (Z.of_nat n) 0)) s)
        l s).
Proof.
  revert s. induction l as [| n l IH]; intros s W; [exact W |].
  cbn [fold_left]. apply IH. now apply received_announcement_on_wf.
Qed.

(** C7.  On a node whose table fits its pool, an announcement from [from]
    calls nothing and reports nothing, and leaves a table that still fits
    its pool, with no address twice and at most sixteen entries.  If [from]
    is in the table, the timer of its entry is set to expire
    [NEIGHBOR_TIMEOUT] after the announcement, and nothing else changes:
    every entry stays at its position, with its block and address, the
    entries of other addresses keep their timers, and the pool and the
    other variables are as before.  If it is not and a block is free, an
    entry for [from] with such a timer is appended, in a block that was
    free.  If it is not and no block is free, the node is left as it was. *)
Theorem C7_received_announcement (now : Z) (from : linkaddr_t) (s : node) :
  wf s ->
  trace_of (received_announcement now from) s = []
  /\ wf (state_after (received_announcement now from) s)
  /\ (List.length (neighbor_table (state_after (received_announcement now from) s))
      <= MAX_NEIGHBORS)%nat
  /\ (In from (map addr (neighbor_table s)) ->
      state_after (received_announcement now from) s
        = set_neighbor_table (map (refreshed now from) (neighbor_table s)) s
      /\ map addr (neighbor_table (state_after (received_announcement now from) s))
         = map addr (neighbor_table s)
      /\ state_after (received_announcement now from) s
         = mk_node (data_buf s) (rt s) (reset_scheduled s)
             (map (fun e =>
                     if linkaddr_cmp from (addr e)
                     then mk_neighbor (blk e) (addr e) (Some (now + NEIGHBOR_TIMEOUT))
                     else e)
                (neighbor_table s))
             (neighbor_mem s)
      /\ (forall e,
            In e (neighbor_table (state_after (received_announcement now from) s)) ->
            addr e = from -> ctimer e = Some (now + NEIGHBOR_TIMEOUT))
      /\ (forall e,
            In e (neighbor_table s) -> addr e <> from ->
            In e (neighbor_table (state_after (received_announcement now from) s))))
  /\ (~ In from (map addr (neighbor_table s)) -> In false (neighbor_mem s) ->
      exists i mem',
        nth_error (neighbor_mem s) i = Some false
        /\ nth_error mem' i = Some true
        /\ (forall j, j <> i -> nth_error mem' j = nth_error (neighbor_mem s) j)
        /\ state_after (received_announcement now from) s
           = mk_node (data_buf s) (rt s) (reset_scheduled s)
               (neighbor_table s
                  ++ [mk_neighbor i from (Some (now + NEIGHBOR_TIMEOUT))])
               mem')
  /\ (~ In from (map addr (neighbor_table s)) -> ~ In false (neighbor_mem s) ->
      state_after (received_announcement now from) s = s).
Proof.
  intros W.
  destruct (received_announcement_on_wf now from s W) as (Wf & Pr & Ins & Full).
  split; [| split; [exact Wf | split; [now apply wf_bounded | split; [| split]]]].
  - unfold trace_of. rewrite received_announcement_cases.
    destruct (refresh now from (neighbor_table s)); [reflexivity |].
    destruct (memb_alloc (neighbor_mem s)) as [[i mem'] |]; reflexivity.
  - intros P.
    assert (X : state_after (received_announcement now from) s
                = mk_node (data_buf s) (rt s) (reset_scheduled s)
                    (map (fun e =>
                            if linkaddr_cmp from (addr e)
                            then mk_neighbor (blk e) (addr e)
                                   (Some (now + NEIGHBOR_TIMEOUT))
                            else e)
                       (neighbor_table s))
                    (neighbor_mem s)).
    { rewrite (Pr P). reflexivity. }
    split; [now apply Pr | split; [| split; [exact X | split]]].
    + rewrite (Pr P). cbn. apply map_blk_refreshed.
    + rewrite X. cbn [neighbor_table]. intros e He Ha.
      apply in_map_iff in He. destruct He as (e0 & <- & _).
      destruct (linkaddr_cmp from (addr e0)) eqn:C; [reflexivity |].
      apply linkaddr_cmp_neq in C. congruence.
    + rewrite X. cbn [neighbor_table]. intros e He Ha.
      apply in_map_iff. exists e. split; [| exact He].
      replace (linkaddr_cmp from (addr e)) with false; [reflexivity |].
      symmetry. apply linkaddr_cmp_neq. congruence.
  - exact Ins.
  - exact Full.
Qed.

(** The three cases.  A node with neighbors 1.0, 2.0 and 3.0, all due to
    expire at tick 7680, hears 2.0 again at tick 99: the entry of 2.0 is now
    due at tick 99 + 7680 and the two others are as before.  It hears 9.0 at
    tick 50: an entry for 9.0, due at tick 7730, is appended.  A node with
    sixteen neighbors hears a seventeenth: nothing changes. *)
Lemma C7_received_announcement_witness :
  (wf three_neighbors /\ wf sixteen_neighbors)
  /\ neighbor_table (state_after (received_announcement 99 (mk_addr 2 0)) three_neighbors)
     = [mk_neighbor 0 (mk_addr 1 0) (Some 7680);
        mk_neighbor 1 (mk_addr 2 0) (Some 7779);
        mk_neighbor 2 (mk_addr 3 0) (Some 7680)]
  /\ (exists i mem',
        nth_error (neighbor_mem three_neighbors) i = Some false
        /\ nth_error mem' i = Some true
        /\ state_after (received_announcement 50 (mk_addr 9 0)) three_neighbors
           = mk_node (Some EmptyString) None false
               [mk_neighbor 0 (mk_addr 1 0) (Some 7680);
                mk_neighbor 1 (mk_addr 2 0) (Some 7680);
                mk_neighbor 2 (mk_addr 3 0) (Some 7680);
                mk_neighbor i (mk_addr 9 0) (Some 7730)]
               mem')
  /\ state_after (received_announcement 50 (mk_addr 99 0)) sixteen_neighbors
     = sixteen_neighbors.
Proof.
  assert (W3 : wf three_neighbors).
  { unfold three_neighbors. repeat (apply received_announcement_on_wf). exact boot_wf. }
  assert (W16 : wf sixteen_neighbors) by (apply announcements_wf; exact boot_wf).
  split; [split; [exact W3 | exact W16] | split; [| split]].
  - destruct (C7_received_announcement 99 (mk_addr 2 0) three_neighbors W3)
      as (_ & _ & _ & Known & _).
    assert (P : In (mk_addr 2 0) (map addr (neighbor_table three_neighbors)))
      by (cbn; tauto).
    destruct (Known P) as (_ & _ & X & _).
    rewrite X. reflexivity.
  - destruct (C7_received_announcement 50 (mk_addr 9 0) three_neighbors W3)
      as (_ & _ & _ & _ & New & _).
    assert (N : ~ In (mk_addr 9 0) (map addr (neighbor_table three_neighbors)))
      by (clear; cbn; intuition discriminate).
    assert (Free : In false (neighbor_mem three_neighbors)) by (clear; cbn; tauto).
    destruct (New N Free) as (i & mem' & F & T & _ & X).
    exists i, mem'. split; [exact F | split; [exact T | exact X]].
  - destruct (C7_received_announcement 50 (mk_addr 99 0) sixteen_neighbors W16)
      as (_ & _ & _ & _ & _ & Full).
    apply Full; clear; vm_compute; intuition discriminate.
Defined.

(** Announcements from the given addresses, one after the other, all at
    tick [now]. *)
Lemma announcements_examples :
  (* a new neighbor is appended, in the first free block *)
  neighbor_table (state_after (received_announcement 7 (mk_addr 2 0)) boot)
    = [mk_neighbor 0 (mk_addr 2 0) (Some 7687)]
  (* a known neighbor only has its timer set again *)
  /\ neighbor_table
       (state_after (received_announcement 99 (mk_addr 2 0))
          (state_after (received_announcement 8 (mk_addr 3 0))
             (state_after (received_announcement 7 (mk_addr 2 0)) boot)))
     = [mk_neighbor 0 (mk_addr 2 0) (Some 7779); mk_neighbor 1 (mk_addr 3 0) (Some 7688)]
  (* with every block in use, a new neighbor is dropped *)
  /\ received_announcement 7 (mk_addr 2 0)
       (mk_node None None false [] (repeat true MAX_NEIGHBORS))
     = (tt, mk_node None None false [] (repeat true MAX_NEIGHBORS), []).
Proof. repeat split. Qed.

(** *** The table fits the pool in every state the node can reach *)

Lemma wf_same_table (s s' : node) :
  neighbor_table s' = neighbor_table s -> neighbor_mem s' = neighbor_mem s ->
  wf s -> wf s'.
Proof. unfold wf. intros -> ->. trivial. Qed.

Lemma wf_empty_table (s : node) :
  neighbor_table s = [] -> List.length (neighbor_mem s) = MAX_NEIGHBORS -> wf s.
Proof.
  unfold wf. intros -> L. cbn. repeat split; try constructor. exact L.
Qed.

Lemma list_remove_in (l : list example_neighbor) (e n : example_neighbor) :
  In n (list_remove l e) -> In n l.
Proof.
  induction l as [| x l IH]; cbn; [tauto |].
  destruct (same_block e x); cbn; tauto.
Qed.

(** Once the entry of a block is removed, no entry of that block is left. *)
Lemma list_remove_block (l : list example_neighbor) (e n : example_neighbor) :
  NoDup (map blk l) -> In n (list_remove l e) -> blk n <> blk e.
Proof.
  induction l as [| x l IH]; cbn; intros ND H; [contradiction |].
  inversion ND as [| b bs Hb ND' Heq]; subst.
  unfold same_block in H. destruct (Nat.eqb (blk e) (blk x)) eqn:E.
  - apply Nat.eqb_eq in E. intros C. apply Hb. rewrite <- E, <- C. now apply in_map.
  - apply Nat.eqb_neq in E. destruct H as [<- | H]; [congruence | now apply IH].
Qed.

Lemma list_remove_nodup {A} (f : example_neighbor -> A)
    (l : list example_neighbor) (e : example_neighbor) :
  NoDup (map f l) -> NoDup (map f (list_remove l e)).
Proof.
  induction l as [| x l IH]; cbn; intros ND; [constructor |].
  inversion ND as [| b bs Hb ND' Heq]; subst.
  destruct (same_block e x); [assumption |].
  cbn. constructor; [| now apply IH].
  intros C. apply Hb. apply in_map_iff in C. destruct C as (n & Hn & Hin).
  rewrite <- Hn. apply in_map. now apply (list_remove_in l e).
Qed.

Lemma memb_free_length (m : list bool) (i : nat) :
  List.length (memb_free m i) = List.length m.
Proof.
  revert i. induction m as [| u m IH]; intros [| i]; cbn; try reflexivity.
  now rewrite IH.
Qed.

Lemma memb_free_other (m : list bool) (i j : nat) :
  j <> i -> nth_error (memb_free m i) j = nth_error m j.
Proof.
  revert i j. induction m as [| u m IH]; intros [| i] [| j] H; cbn;
    try reflexivity; try congruence.
  apply IH. congruence.
Qed.

Lemma remove_neighbor_wf (e : example_neighbor) (s : node) :
  wf s -> wf (state_after (remove_neighbor e) s).
Proof.
  intros (L & NB & NA & U).
  unfold state_after, remove_neighbor, bind, modify. cbn.
  repeat split; cbn.
  - now rewrite memb_free_length.
  - now apply list_remove_nodup.
  - now apply list_remove_nodup.
  - rewrite Forall_forall in *. intros n Hn.
    rewrite memb_free_other by now apply (list_remove_block _ _ _ NB Hn).
    apply U. now apply (list_remove_in _ e).
Qed.

Lemma store_packet_cases (packet : string) (s : node) :
  store_packet packet s =
  match data_buf s with
  | Some _ => (Done tt, set_data_buf (Some (substring 0 DATA_BUF_SIZE packet)) s, [])
  | None => (Fault, s, [])
  end.
Proof.
  unfold store_packet, bind, gets, modify, ret. cbn. now destruct (data_buf s).
Qed.

Lemma store_packet_table (packet : string) (s : node) :
  neighbor_table (state_after (store_packet packet) s) = neighbor_table s
  /\ neighbor_mem (state_after (store_packet packet) s) = neighbor_mem s.
Proof.
  unfold state_after. rewrite store_packet_cases. destruct (data_buf s); auto.
Qed.

Lemma forward_state (r : Z) (packet : string) (s : node) :
  state_after (forward r packet) s = state_after (store_packet packet) s.
Proof.
  unfold state_after, forward, bind, emit. cbn [fst snd].
  rewrite store_packet_cases.
  destruct (data_buf s); [| reflexivity].
  unfold gets, ret. cbn -[walk Z.modulo list_length Z.ltb].
  destruct (0 <? list_length (neighbor_table s)); cbn -[walk Z.modulo list_length];
    [| reflexivity].
  destruct (walk (neighbor_table s) 0 (r mod list_length (neighbor_table s)));
    reflexivity.
Qed.

Lemma forward_table (r : Z) (packet : string) (s : node) :
  neighbor_table (state_after (forward r packet) s) = neighbor_table s
  /\ neighbor_mem (state_after (forward r packet) s) = neighbor_mem s.
Proof. rewrite forward_state. apply store_packet_table. Qed.

Lemma recv_state (packet : string) (s : node) :
  state_after (recv packet) s = state_after (store_packet packet) s.
Proof.
  unfold state_after, recv, bind. rewrite store_packet_cases.
  now destruct (data_buf s).
Qed.

Lemma reset_wf (now delay : Z) (s : node) :
  wf s -> wf (state_after (reset now delay) s).
Proof.
  intros W. unfold state_after.
  destruct (neighbor_table s) as [| e l] eqn:E.
  - now rewrite reset_without_neighbors.
  - rewrite reset_with_neighbors by congruence. cbn.
    apply wf_empty_table; [reflexivity | apply W].
Qed.

Lemma serial_handler_wf (now : Z) (data : string) (s : node) :
  wf s -> wf (state_after (serial_handler now data) s).
Proof.
  intros W. unfold serial_handler. rewrite state_after_bind, serial_loop_state.
  destruct (seen_sleep _ && (0 <? delay _))%bool; [now apply reset_wf | exact W].
Qed.

Lemma process_event_wf (now : Z) (ev : proc_event) (s : node) :
  wf s -> wf (state_after (process_event now ev) s).
Proof.
  intros W.
  assert (R : wf (state_after (restart_if_due now) s)).
  { unfold state_after. rewrite restart_if_due_cases.
    destruct (etimer_expired now (rt s) && reset_scheduled s)%bool; [| exact W].
    cbn. apply wf_empty_table; reflexivity. }
  destruct ev as [| [data |] |]; cbn [process_event]; try exact R.
  - exact W.
  - now apply serial_handler_wf.
Qed.

Lemma handle_wf (e : event) (s : node) : wf s -> wf (state_after (handle e) s).
Proof.
  intros W. destruct e as [now from | position | r packet | packet | now ev];
    cbn [handle].
  - now apply received_announcement_on_wf.
  - rewrite state_after_bind. cbn.
    destruct (nth_error (neighbor_table s) position); [now apply remove_neighbor_wf | exact W].
  - rewrite state_after_bind. cbn.
    destruct (forward_table r packet s) as [T1 T2].
    now apply (wf_same_table s).
  - rewrite state_after_bind. cbn. rewrite recv_state.
    destruct (store_packet_table packet s) as [T1 T2].
    now apply (wf_same_table s).
  - now apply process_event_wf.
Qed.

(** Whatever happens to a node after it has started, its table fits its
    pool: the hypothesis of the theorem above holds whenever an
    announcement arrives. *)
Lemma run_wf (es : list event) (s : node) : wf s -> wf (state_after (run es) s).
Proof.
  revert s. induction es as [| e es IH]; intros s W; [exact W |].
  cbn [run]. rewrite state_after_bind. apply IH. now apply handle_wf.
Qed.

Lemma reachable_wf (es : list event) : wf (state_after (run es) boot).
Proof. apply run_wf, boot_wf. Qed.

End NeighborTable.

(** ** Forwarding to a random neighbor *)

Section Forwarding.

Import C Etimer Eff RmhFw.

(** The walk over the list stops at the entry at position [num]. *)
Lemma walk_nth (l : list example_neighbor) (i num : Z) :
  i <= num -> walk l i num = nth_error l (Z.to_nat (num - i)).
Proof.
  revert i. induction l as [| e l IH]; intros i H; cbn [walk].
  - now destruct (Z.to_nat (num - i)).
  - destruct (i =? num) eqn:E.
    + apply Z.eqb_eq in E. subst. now rewrite Z.sub_diag.
    + apply Z.eqb_neq in E. rewrite IH by lia.
      replace (Z.to_nat (num - i)) with (S (Z.to_nat (num - (i + 1)))) by lia.
      reflexivity.
Qed.

(** What [forward] returns, and when it does not return. *)
Lemma forward_value (r : Z) (packet : string) (s : node) :
  value_of (forward r packet) s =
    match data_buf s with
    | None => Fault
    | Some _ =>
        Done match neighbor_table s with
             | [] => None
             | _ :: _ =>
                 option_map addr
                   (nth_error (neighbor_table s)
                      (Z.to_nat (r mod list_length (neighbor_table s))))
             end
    end.
Proof.
  unfold value_of, forward, bind, emit. cbn [fst snd].
  rewrite store_packet_cases.
  destruct (data_buf s) as [buf |]; [| reflexivity].
  unfold gets, ret. cbn -[walk Z.modulo list_length Z.ltb].
  destruct (neighbor_table s) as [| e l] eqn:E; [reflexivity |].
  assert (L : 0 < list_length (e :: l)) by (unfold list_length; cbn [List.length]; lia).
  replace (0 <? list_length (e :: l)) with true by (symmetry; now apply Z.ltb_lt).
  pose proof (Z.mod_pos_bound r _ L) as B.
  rewrite walk_nth by lia. rewrite Z.sub_0_r.
  destruct (nth_error (e :: l) (Z.to_nat (r mod list_length (e :: l)))) as [n |] eqn:N;
    [reflexivity |].
  exfalso. apply nth_error_None in N. unfold list_length in *. lia.
Qed.

(** Called while [data_buf] is NULL, [forward] prints its first line and
    faults in the copy: it returns nothing and has changed nothing. *)
Lemma forward_without_buffer (r : Z) (packet : string) (s : node) :
  data_buf s = None ->
  forward r packet s
  = (Fault, s, [PRINTF "multihop message received '%s'\n" [Str packet]]).
Proof.
  intros H. unfold forward, bind, emit. cbn [fst snd].
  rewrite store_packet_cases, H. reflexivity.
Qed.

(** So does [recv], before it has printed anything. *)
Lemma recv_without_buffer (packet : string) (s : node) :
  data_buf s = None -> recv packet s = (Fault, s, []).
Proof.
  intros H. unfold recv, bind. rewrite store_packet_cases, H. reflexivity.
Qed.

Lemma forwarded_nth (r : Z) (packet : string) (s : node) :
  data_buf s <> None ->
  forwarded r packet s =
    match neighbor_table s with
    | [] => None
    | _ :: _ =>
        option_map addr
          (nth_error (neighbor_table s)
             (Z.to_nat (r mod list_length (neighbor_table s))))
    end.
Proof.
  intros H. unfold forwarded. rewrite forward_value.
  destruct (data_buf s); [reflexivity | congruence].
Qed.

Lemma forward_returns (r : Z) (packet : string) (s : node) :
  data_buf s <> None ->
  value_of (forward r packet) s = Done (forwarded r packet s).
Proof.
  intros H. unfold forwarded. rewrite forward_value.
  destruct (data_buf s); [reflexivity | congruence].
Qed.

(** Among [0 .. m-1], the values that leave the remainder [i] modulo [n]. *)
Lemma count_residue (n i : Z) (m : nat) :
  0 <= i < n ->
  Z.of_nat
    (List.length (filter (fun r => Z.of_nat r mod n =? i) (seq 0 m)))
  = Z.of_nat m / n + (if i <? Z.of_nat m mod n then 1 else 0).
Proof.
  intros Hi. induction m as [| m IH].
  - cbn [seq filter List.length]. change (Z.of_nat 0) with 0.
    rewrite Z.div_0_l, Z.mod_0_l by lia.
    replace (i <? 0) with false by (symmetry; apply Z.ltb_ge; lia). reflexivity.
  - rewrite seq_S, filter_app, length_app, Nat2Z.inj_add, IH. cbn [Nat.add filter].
    assert (Q : Z.of_nat (S m) = Z.of_nat m + 1) by lia. rewrite Q.
    set (x := Z.of_nat m) in *.
    assert (X : 0 <= x) by lia.
    destruct (Z.eq_dec (x mod n + 1) n) as [Top | Mid].
    + assert (D : (x + 1) / n = x / n + 1 /\ (x + 1) mod n = 0).
      { split; [symmetry; apply (Z.div_unique (x + 1) n (x / n + 1) 0) |
                symmetry; apply (Z.mod_unique (x + 1) n (x / n + 1) 0)];
          try lia; pose proof (Z.div_mod x n ltac:(lia)); nia. }
      destruct D as [D1 D2]. rewrite D1, D2.
      replace (i <? 0) with false by (symmetry; apply Z.ltb_ge; lia).
      destruct (x mod n =? i) eqn:E; [apply Z.eqb_eq in E | apply Z.eqb_neq in E].
      * replace (i <? x mod n) with false by (symmetry; apply Z.ltb_ge; lia).
        cbn. lia.
      * replace (i <? x mod n) with true by (symmetry; apply Z.ltb_lt; lia).
        cbn. lia.
    + pose proof (Z.mod_pos_bound x n ltac:(lia)) as B.
      assert (D : (x + 1) / n = x / n /\ (x + 1) mod n = x mod n + 1).
      { split; [symmetry; apply (Z.div_unique (x + 1) n (x / n) (x mod n + 1)) |
                symmetry; apply (Z.mod_unique (x + 1) n (x / n) (x mod n + 1))];
          try lia; pose proof (Z.div_mod x n ltac:(lia)); nia. }
      destruct D as [D1 D2]. rewrite D1, D2.
      destruct (x mod n =? i) eqn:E; [apply Z.eqb_eq in E | apply Z.eqb_neq in E].
      * replace (i <? x mod n) with false by (symmetry; apply Z.ltb_ge; lia).
        replace (i <? x mod n + 1) with true by (symmetry; apply Z.ltb_lt; lia).
        cbn. lia.
      * destruct (i <? x mod n) eqn:F; [apply Z.ltb_lt in F | apply Z.ltb_ge in F].
        -- replace (i <? x mod n + 1) with true by (symmetry; apply Z.ltb_lt; lia).
           cbn. lia.
        -- replace (i <? x mod n + 1) with false by (symmetry; apply Z.ltb_ge; lia).
           cbn. lia.
Qed.

(** In a table without duplicate addresses, the entry at position [i] is
    returned for [m / len] of the values [0 .. m-1], and for one more when
    [i] is below [m mod len]. *)
Lemma chances_formula (m : Z) (packet : string) (s : node)
    (i : nat) (e : example_neighbor) :
  data_buf s <> None ->
  0 <= m ->
  NoDup (map addr (neighbor_table s)) ->
  nth_error (neighbor_table s) i = Some e ->
  chances m packet s (addr e)
  = m / list_length (neighbor_table s)
    + (if Z.of_nat i <? m mod list_length (neighbor_table s) then 1 else 0).
Proof.
  intros Buf Hm ND Hi. unfold chances.
  assert (Len : (i < List.length (neighbor_table s))%nat)
    by (apply nth_error_Some; congruence).
  assert (L : 0 < list_length (neighbor_table s)) by (unfold list_length; lia).
  rewrite <- (Z2Nat.id m Hm) at 2 3.
  rewrite <- (count_residue (list_length (neighbor_table s)) (Z.of_nat i) (Z.to_nat m))
    by (unfold list_length; lia).
  f_equal. f_equal. apply filter_ext. intros r.
  rewrite forwarded_nth by exact Buf.
  destruct (neighbor_table s) as [| e0 l] eqn:E; [cbn in Len; lia |].
  pose proof (Z.mod_pos_bound (Z.of_nat r) _ L) as B.
  set (j := Z.to_nat (Z.of_nat r mod list_length (e0 :: l))).
  assert (Hj : (j < List.length (e0 :: l))%nat) by (unfold list_length in *; lia).
  destruct (nth_error (e0 :: l) j) as [n |] eqn:N;
    [| apply nth_error_None in N; lia].
  cbn [option_map addr_eqb].
  destruct (Z.of_nat r mod list_length (e0 :: l) =? Z.of_nat i) eqn:Q.
  - apply Z.eqb_eq in Q. assert (j = i) by lia. subst i.
    apply linkaddr_cmp_eq. congruence.
  - apply Z.eqb_neq in Q. apply linkaddr_cmp_neq. intros C.
    assert (j = i); [| lia].
    apply (proj1 (NoDup_nth_error (map addr (e0 :: l))) ND j i).
    + now rewrite length_map.
    + rewrite !nth_error_map, N, Hi. cbn. congruence.
Qed.

Lemma three_neighbors_table :
  neighbor_table three_neighbors
  = [mk_neighbor 0 (mk_addr 1 0) (Some 7680);
     mk_neighbor 1 (mk_addr 2 0) (Some 7680);
     mk_neighbor 2 (mk_addr 3 0) (Some 7680)].
Proof. reflexivity. Qed.

Lemma three_neighbors_distinct : NoDup (map addr (neighbor_table three_neighbors)).
Proof.
  rewrite three_neighbors_table. cbn.
  repeat constructor; cbn; intuition discriminate.
Qed.

(** C8, as amended.  On a node whose data buffer is allocated, as it is
    from [initialise] until a crash, [forward] returns; it returns NULL
    exactly when the table is empty, and otherwise the address of the entry
    at position [random_rand() mod length].  Of [m] equally likely random
    values, the entry at position [i] is chosen by [m / length] of them, and
    by one more if [i < m mod length]: the chances of two entries differ by
    at most one value, they are equal when the length divides [m], and
    otherwise the entries at the head of the list, those added first, have
    the one value more. *)
Theorem C8_forward_by_remainder (r : Z) (packet : string) (s : node) :
  data_buf s <> None ->
  value_of (forward r packet) s = Done (forwarded r packet s)
  /\ (forwarded r packet s = None <-> neighbor_table s = [])
  /\ (neighbor_table s <> [] ->
      forwarded r packet s
      = option_map addr
          (nth_error (neighbor_table s)
             (Z.to_nat (r mod list_length (neighbor_table s)))))
  /\ (forall m i e,
        0 <= m -> NoDup (map addr (neighbor_table s)) ->
        nth_error (neighbor_table s) i = Some e ->
        chances m packet s (addr e)
        = m / list_length (neighbor_table s)
          + (if Z.of_nat i <? m mod list_length (neighbor_table s) then 1 else 0))
  /\ (forall m i j ei ej,
        0 <= m -> NoDup (map addr (neighbor_table s)) ->
        nth_error (neighbor_table s) i = Some ei ->
        nth_error (neighbor_table s) j = Some ej ->
        m mod list_length (neighbor_table s) = 0 ->
        chances m packet s (addr ei) = chances m packet s (addr ej)).
Proof.
  intros Buf.
  split; [now apply forward_returns | split; [| split; [| split]]].
  - rewrite forwarded_nth by exact Buf.
    destruct (neighbor_table s) as [| e l] eqn:E; [tauto |].
    split; [| discriminate].
    assert (L : 0 < list_length (e :: l))
      by (unfold list_length; cbn [List.length]; lia).
    pose proof (Z.mod_pos_bound r _ L) as B.
    destruct (nth_error (e :: l) (Z.to_nat (r mod list_length (e :: l)))) eqn:N;
      [discriminate |].
    apply nth_error_None in N. unfold list_length in *. lia.
  - intros H. rewrite forwarded_nth by exact Buf.
    destruct (neighbor_table s); [congruence | reflexivity].
  - intros m i e Hm ND Hi. now apply chances_formula.
  - intros m i j ei ej Hm ND Hi Hj Hd.
    rewrite (chances_formula m packet s i ei), (chances_formula m packet s j ej)
      by assumption.
    rewrite Hd.
    replace (Z.of_nat i <? 0) with false by (symmetry; apply Z.ltb_ge; lia).
    replace (Z.of_nat j <? 0) with false by (symmetry; apply Z.ltb_ge; lia).
    reflexivity.
Qed.

(** With neighbors 1.0, 2.0 and 3.0 and the random value 7, the packet
    goes to the neighbor at position 7 mod 3 = 1; of 12 random values each
    of the three neighbors gets 4. *)
Lemma C8_forward_by_remainder_witness :
  data_buf three_neighbors <> None
  /\ value_of (forward 7 "hello") three_neighbors = Done (Some (mk_addr 2 0))
  /\ forwarded 7 "hello" three_neighbors = Some (mk_addr 2 0)
  /\ chances 12 "hello" three_neighbors (mk_addr 1 0)
     = chances 12 "hello" three_neighbors (mk_addr 3 0).
Proof.
  assert (Buf : data_buf three_neighbors <> None) by discriminate.
  destruct (C8_forward_by_remainder 7 "hello" three_neighbors Buf)
    as (R & _ & P & _ & U).
  assert (F : forwarded 7 "hello" three_neighbors = Some (mk_addr 2 0))
    by (rewrite P; [reflexivity | discriminate]).
  split; [exact Buf | split; [| split; [exact F |]]].
  - rewrite R, F. reflexivity.
  - apply (U 12 0%nat 2%nat
             (mk_neighbor 0 (mk_addr 1 0) (Some 7680))
             (mk_neighbor 2 (mk_addr 3 0) (Some 7680)));
      [lia | exact three_neighbors_distinct | reflexivity | reflexivity | reflexivity].
Defined.

(** C8 as stated fails twice.  The chances are not equal: with three
    neighbors and the 65536 values of [random_rand()], the neighbor added
    first is chosen by 21846 values and each of the other two by 21845.
    (Were the random values only the 32768 of a 15-bit [rand()], the first
    two neighbors would have 10923 values each and the third 10922.)  And an
    empty table is not enough for NULL to be returned: on the node a "sleep"
    has crashed, whose table is empty and whose buffer is NULL, [forward]
    faults in the copy and returns nothing. *)
Lemma C8_counterexample :
  (chances RANDOM_VALUES "hello" three_neighbors (mk_addr 1 0) = 21846
   /\ chances RANDOM_VALUES "hello" three_neighbors (mk_addr 2 0) = 21845
   /\ chances RANDOM_VALUES "hello" three_neighbors (mk_addr 3 0) = 21845
   /\ chances RANDOM_VALUES "hello" three_neighbors (mk_addr 1 0)
      <> chances RANDOM_VALUES "hello" three_neighbors (mk_addr 2 0))
  /\ (neighbor_table (state_after (serial_handler 0 "sleep 5") three_neighbors) = []
      /\ value_of (forward 7 "hello")
           (state_after (serial_handler 0 "sleep 5") three_neighbors) = Fault).
Proof.
  assert (A : chances RANDOM_VALUES "hello" three_neighbors (mk_addr 1 0) = 21846).
  { change (mk_addr 1 0) with (addr (mk_neighbor 0 (mk_addr 1 0) (Some 7680))).
    rewrite (chances_formula _ _ _ 0%nat);
      [reflexivity | discriminate | discriminate | exact three_neighbors_distinct
       | reflexivity]. }
  assert (B : chances RANDOM_VALUES "hello" three_neighbors (mk_addr 2 0) = 21845).
  { change (mk_addr 2 0) with (addr (mk_neighbor 1 (mk_addr 2 0) (Some 7680))).
    rewrite (chances_formula _ _ _ 1%nat);
      [reflexivity | discriminate | discriminate | exact three_neighbors_distinct
       | reflexivity]. }
  assert (D : chances RANDOM_VALUES "hello" three_neighbors (mk_addr 3 0) = 21845).
  { change (mk_addr 3 0) with (addr (mk_neighbor 2 (mk_addr 3 0) (Some 7680))).
    rewrite (chances_formula _ _ _ 2%nat);
      [reflexivity | discriminate | discriminate | exact three_neighbors_distinct
       | reflexivity]. }
  split; [| split; reflexivity].
  split; [exact A | split; [exact B | split; [exact D |]]].
  rewrite A, B. discriminate.
Qed.

End Forwarding.

(** ** Tokens between two nodes *)

Section Exchange.

Import C Eff TrickleFw Obs Runs.

(** What the listener hears of a speaker that is not suppressed is the
    speaker's token; of a suppressed speaker it hears nothing. *)
Lemma hears_cases (a b : node) :
  hears a b = if suppress_trickle a then b else fst (on_receive (token a) b).
Proof.
  unfold hears, trace_of at 1. rewrite trickle_tx_cases.
  replace (TRICKLE_TIMER_TX_OK =? TRICKLE_TIMER_TX_SUPPRESS) with false by reflexivity.
  destruct (suppress_trickle a); cbn [orb snd heard flat_map app nth receive_all].
  - reflexivity.
  - rewrite state_after_bind. reflexivity.
Qed.

Lemma on_receive_keeps_suppress (p : Z) (s : node) :
  suppress_trickle (fst (on_receive p s)) = suppress_trickle s.
Proof.
  rewrite on_receive_cases.
  destruct (token s =? p); [| destruct (theirs_is_newer (token s) p)]; reflexivity.
Qed.

(** X1.  Two nodes that are not suppressed and hear each other once, first
    [b] hearing [a], then [a] hearing [b], hold the same token afterwards,
    whatever tokens they held before. *)
Theorem exchange_converges (a b : node) :
  byte (token a) -> byte (token b) ->
  suppress_trickle a = false -> suppress_trickle b = false ->
  token (hears (hears a b) a) = token (hears a b).
Proof.
  unfold byte. intros Ha Hb Sa Sb.
  rewrite (hears_cases a b), Sa.
  rewrite hears_cases, on_receive_keeps_suppress, Sb.
  rewrite (on_receive_cases (token a) b).
  destruct (token b =? token a) eqn:E.
  - apply Z.eqb_eq in E. cbn [fst]. rewrite on_receive_cases, E, Z.eqb_refl. reflexivity.
  - apply Z.eqb_neq in E.
    destruct (theirs_is_newer (token b) (token a)) eqn:N; cbn [fst].
    + rewrite on_receive_cases. cbn [token set_token]. now rewrite Z.eqb_refl.
    + rewrite on_receive_cases.
      replace (token a =? token b) with false by (symmetry; apply Z.eqb_neq; congruence).
      assert (N' : theirs_is_newer (token a) (token b) = true).
      { apply theirs_is_newer_distance; try assumption.
        assert (X : ~ (1 <= (token a - token b) mod 256 <= 128)).
        { intros C. apply theirs_is_newer_distance in C; try assumption. congruence. }
        Z.div_mod_to_equations. lia. }
      rewrite N'. reflexivity.
Qed.

(** A node holding 250 and a node holding 5: both hold 5 afterwards. *)
Lemma exchange_converges_witness :
  (byte (token (set_token 250 boot)) /\ byte (token (set_token 5 boot)))
  /\ token (hears (hears (set_token 250 boot) (set_token 5 boot)) (set_token 250 boot))
     = token (hears (set_token 250 boot) (set_token 5 boot))
  /\ token (hears (set_token 250 boot) (set_token 5 boot)) = 5.
Proof.
  assert (A : byte (token (set_token 250 boot))) by (unfold byte; cbn; lia).
  assert (B : byte (token (set_token 5 boot))) by (unfold byte; cbn; lia).
  split; [split; assumption |].
  split; [| reflexivity].
  exact (exchange_converges (set_token 250 boot) (set_token 5 boot) A B eq_refl eq_refl).
Defined.

(** X2.  The receipt of a token is idempotent on the node: the same token
    received a second time changes nothing more, and it is then found
    consistent exactly when the first receipt found it equal or took it. *)
Theorem receipt_idempotent (p : Z) (s : node) :
  fst (on_receive p (fst (on_receive p s))) = fst (on_receive p s)
  /\ protocol (snd (on_receive p (fst (on_receive p s))))
     = (if ((token s =? p) || theirs_is_newer (token s) p)%bool
        then [TT_consistency] else [TT_inconsistency]).
Proof.
  rewrite (on_receive_cases p s).
  destruct (token s =? p) eqn:E.
  - cbn [fst]. rewrite on_receive_cases, E. split; reflexivity.
  - destruct (theirs_is_newer (token s) p) eqn:N; cbn [fst orb].
    + rewrite on_receive_cases. cbn [token set_token]. rewrite Z.eqb_refl.
      split; reflexivity.
    + rewrite on_receive_cases, E, N. split; reflexivity.
Qed.

End Exchange.

(** ** Generation of tokens and the wake-up after a sleep *)

Section Generation.

Import C Etimer Eff TrickleFw Obs Runs.

Lemma run_timers_state_cons (now r : Z) (rest : list (Z * Z)) (s : node) :
  state_after (run_timers ((now, r) :: rest)) s
  = state_after (run_timers rest) (state_after (timers now r) s).
Proof. cbn [run_timers process_event]. now rewrite state_after_bind. Qed.

Lemma run_timers_trace_cons (now r : Z) (rest : list (Z * Z)) (s : node) :
  trace_of (run_timers ((now, r) :: rest)) s
  = (trace_of (timers now r) s
     ++ trace_of (run_timers rest) (state_after (timers now r) s))%list.
Proof. cbn [run_timers process_event]. now rewrite trace_of_bind. Qed.

(** X3.  With a limit of at most 255, the tokens a node generates never
    pass the limit: if the token is between 0 and [msg_limit] it is still so
    after any number of timer events, restarts included, and the limit
    itself is not changed by them. *)
Theorem generated_token_within_limit (evs : list (Z * Z)) (s : node) :
  0 <= token s <= msg_limit s -> msg_limit s <= 255 ->
  0 <= token (state_after (run_timers evs) s) <= msg_limit s
  /\ msg_limit (state_after (run_timers evs) s) = msg_limit s.
Proof.
  revert s. induction evs as [| [now r] rest IH]; intros s Ht Hl.
  - cbn. auto.
  - rewrite run_timers_state_cons.
    assert (K : 0 <= token (state_after (timers now r) s) <= msg_limit s
                /\ msg_limit (state_after (timers now r) s) = msg_limit s).
    { unfold state_after. rewrite timers_cases.
      destruct (etimer_expired now (et s) && is_source s)%bool.
      - destruct (r mod NEW_TOKEN_PROB =? 0); cbn [andb]; [| cbn; auto].
        destruct (token s <? msg_limit s) eqn:L; [| cbn; auto].
        apply Z.ltb_lt in L. cbn. unfold uint8.
        rewrite Z.mod_small by lia. split; [lia | reflexivity].
      - destruct (etimer_expired now (rt s) && reset_scheduled s)%bool; cbn;
          [split; [lia | reflexivity] | auto]. }
    destruct K as [Kt Kl].
    destruct (IH (state_after (timers now r) s)) as [A B];
      [now rewrite Kl | now rewrite Kl |].
    rewrite Kl in A, B. auto.
Qed.

(** A source with limit 1, woken up twice with a random value that lets
    it generate: the token stays between 0 and 1. *)
Lemma generated_token_within_limit_witness :
  (0 <= token (set_is_source true boot) <= msg_limit (set_is_source true boot)
   /\ msg_limit (set_is_source true boot) <= 255)
  /\ 0 <= token (state_after (run_timers [(0, 0); (640, 0)]) (set_is_source true boot))
       <= msg_limit (set_is_source true boot).
Proof.
  assert (A : 0 <= token (set_is_source true boot) <= msg_limit (set_is_source true boot))
    by (cbn; lia).
  assert (B : msg_limit (set_is_source true boot) <= 255) by (cbn; lia).
  destruct (generated_token_within_limit [(0, 0); (640, 0)] _ A B) as [K _].
  split; [split; assumption | exact K].
Defined.

(** X4.  A node that is not a source never originates a token: whatever
    the timer events and the random values, it gives no signal to the
    engine, stays a non-source, and its token is the one it had, or 0 if it
    was restarted on the way. *)
Theorem only_a_source_generates (evs : list (Z * Z)) (s : node) :
  is_source s = false ->
  signals (trace_of (run_timers evs) s) = []
  /\ is_source (state_after (run_timers evs) s) = false
  /\ (token (state_after (run_timers evs) s) = token s
      \/ token (state_after (run_timers evs) s) = 0).
Proof.
  revert s. induction evs as [| [now r] rest IH]; intros s H.
  - cbn. auto.
  - rewrite run_timers_state_cons, run_timers_trace_cons.
    assert (K : signals (trace_of (timers now r) s) = []
                /\ is_source (state_after (timers now r) s) = false
                /\ (token (state_after (timers now r) s) = token s
                    \/ token (state_after (timers now r) s) = 0)).
    { unfold state_after, trace_of. rewrite timers_cases, H, andb_false_r.
      destruct (etimer_expired now (rt s) && reset_scheduled s)%bool; cbn; auto. }
    destruct K as (Ks & Kr & Kt).
    destruct (IH _ Kr) as (A & B & D).
    unfold signals in *. rewrite filter_app, Ks, A.
    repeat split; [exact B |].
    destruct D as [D | D]; [rewrite D; exact Kt | now right].
Qed.

(** A sink whose generation timer has long expired is woken up three
    times: no signal, token unchanged. *)
Lemma only_a_source_generates_witness :
  is_source (set_is_sink true boot) = false
  /\ signals (trace_of (run_timers [(0, 0); (700, 2); (1400, 4)]) (set_is_sink true boot))
     = [].
Proof.
  destruct (only_a_source_generates [(0, 0); (700, 2); (1400, 4)]
              (set_is_sink true boot) eq_refl) as (A & _).
  split; [reflexivity | exact A].
Defined.



End Generation.

(** ** What a node sends *)

Section Sending.

Import C Etimer Eff TrickleFw Obs Runs.

Lemma sends_app (a b : list effect) : sends (a ++ b) = (sends a ++ sends b)%list.
Proof. apply filter_app. Qed.

(** A suppressed node with no restart scheduled stays so, and sends
    nothing, through any event that is not a line of the operator. *)
Lemma net_step_silent (ev : net_event) (s : node) :
  no_command ev -> suppress_trickle s = true -> reset_scheduled s = false ->
  sends (trace_of (net_step ev) s) = []
  /\ suppress_trickle (state_after (net_step ev) s) = true
  /\ reset_scheduled (state_after (net_step ev) s) = false.
Proof.
  intros Hc Hs Hr.
  assert (T : forall now r,
             sends (trace_of (timers now r) s) = []
             /\ suppress_trickle (state_after (timers now r) s) = true
             /\ reset_scheduled (state_after (timers now r) s) = false).
  { intros now r. unfold trace_of, state_after. rewrite timers_cases, Hr, andb_false_r.
    destruct (etimer_expired now (et s) && is_source s)%bool; [| cbn; auto].
    destruct ((r mod NEW_TOKEN_PROB =? 0) && (token s <? msg_limit s))%bool; cbn; auto. }
  destruct ev as [now r [[p |] | [data |] |] | suppress]; cbn [net_step process_event].
  - change (trace_of (tcpip_handler (Some p)) s) with (snd (on_receive p s)).
    change (state_after (tcpip_handler (Some p)) s) with (fst (on_receive p s)).
    rewrite on_receive_cases.
    destruct (token s =? p); [| destruct (theirs_is_newer (token s) p)]; cbn; auto.
  - cbn. auto.
  - contradiction.
  - apply T.
  - apply T.
  - unfold trace_of, state_after. rewrite trickle_tx_cases, Hs, orb_true_r. cbn. auto.
Qed.

Lemma run_net_silent (evs : list net_event) (s : node) :
  Forall no_command evs -> suppress_trickle s = true -> reset_scheduled s = false ->
  sends (trace_of (run_net evs) s) = []
  /\ suppress_trickle (state_after (run_net evs) s) = true.
Proof.
  revert s. induction evs as [| ev rest IH]; intros s Hc Hs Hr.
  - cbn. auto.
  - inversion Hc as [| x xs Hev Hrest]; subst.
    cbn [run_net]. rewrite trace_of_bind, state_after_bind, sends_app.
    destruct (net_step_silent ev s Hev Hs Hr) as (A & B & D).
    destruct (IH _ Hrest B D) as (A' & B').
    rewrite A, A'. auto.
Qed.

(** X6.  After the line "print" a node with no restart scheduled is
    silent for good: whatever packets arrive, whatever timers expire and
    whatever flag the engine calls the callback with, it sends nothing, and
    it stays suppressed until the operator types another line. *)
Theorem silent_after_print (now : Z) (evs : list net_event) (s : node) :
  reset_scheduled s = false -> Forall no_command evs ->
  sends (trace_of (run_net evs) (state_after (serial_handler now "print") s)) = []
  /\ suppress_trickle
       (state_after (run_net evs) (state_after (serial_handler now "print") s)) = true.
Proof.
  intros Hr Hc. unfold state_after at 1 3. rewrite serial_print_line. cbn [fst snd].
  apply run_net_silent; [exact Hc | reflexivity | exact Hr].
Qed.

(** After "print", a newer token arrives, the generation timer expires
    and the engine lets the node transmit twice: nothing is sent. *)
Lemma silent_after_print_witness :
  (reset_scheduled boot = false
   /\ Forall no_command [Woken 1 0 (Tcpip (Some 3)); Woken 700 0 Other;
                         Transmit 1; Transmit 1])
  /\ sends (trace_of (run_net [Woken 1 0 (Tcpip (Some 3)); Woken 700 0 Other;
                               Transmit 1; Transmit 1])
              (state_after (serial_handler 0 "print") boot)) = [].
Proof.
  assert (F : Forall no_command [Woken 1 0 (Tcpip (Some 3)); Woken 700 0 Other;
                                 Transmit 1; Transmit 1])
    by (repeat constructor).
  destruct (silent_after_print 0 _ boot eq_refl F) as [A _].
  split; [split; [reflexivity | exact F] | exact A].
Defined.

(** The building blocks of the handlers keep a byte in the token. *)
Lemma byte_safe_ret {A} (a : A) : byte_safe (ret a).
Proof. intros s H. split; [exact H | constructor]. Qed.

Lemma byte_safe_emit (e : effect) : one_byte_send e -> byte_safe (emit e).
Proof. intros He s H. split; [exact H | repeat constructor; exact He]. Qed.

Lemma byte_safe_gets {A} (f : node -> A) : byte_safe (gets f).
Proof. intros s H. split; [exact H | constructor]. Qed.

Lemma byte_safe_modify (g : node -> node) :
  (forall s, byte (token s) -> byte (token (g s))) -> byte_safe (modify g).
Proof. intros Hg s H. split; [now apply Hg | constructor]. Qed.

Lemma byte_safe_bind {A B} (m : TrickleFw.M A) (f : A -> TrickleFw.M B) :
  byte_safe m -> (forall a, byte_safe (f a)) -> byte_safe (bind m f).
Proof.
  intros Hm Hf s H. destruct (Hm s H) as [T1 F1].
  rewrite state_after_bind, trace_of_bind.
  destruct (Hf (value_of m s) _ T1) as [T2 F2].
  split; [exact T2 | apply Forall_app; split; assumption].
Qed.

Lemma byte_uint8 (z : Z) : byte (uint8 z).
Proof. unfold byte, uint8. apply Z.mod_pos_bound. lia. Qed.

Ltac byte_safe_step :=
  first
    [ apply byte_safe_ret
    | apply byte_safe_emit; exact I
    | apply byte_safe_gets
    | apply byte_safe_modify; intros ? ?; first [assumption | apply byte_uint8
                                                | unfold byte; cbn; lia]
    | apply byte_safe_bind; [| intros ?]
    | match goal with
      | |- byte_safe (if ?b then _ else _) => destruct b
      | |- byte_safe (match ?x with _ => _ end) => destruct x
      end ].

Lemma trickle_init_byte_safe (now : Z) : byte_safe (trickle_init now).
Proof. unfold trickle_init. repeat byte_safe_step. Qed.

Lemma serial_loop_byte_safe (now : Z) (toks : list string) (l : locals) :
  byte_safe (serial_loop now toks l).
Proof.
  revert l. induction toks as [| ptr rest IH]; intros l; cbn [serial_loop].
  - apply byte_safe_ret.
  - unfold parse_init, parse_limit, parse_print, parse_set.
    repeat first [apply IH | apply trickle_init_byte_safe | byte_safe_step].
Qed.

Lemma serial_handler_byte_safe (now : Z) (data : string) :
  byte_safe (serial_handler now data).
Proof.
  unfold serial_handler.
  repeat first [apply serial_loop_byte_safe | byte_safe_step].
Qed.

Lemma timers_byte_safe (now r : Z) : byte_safe (timers now r).
Proof.
  unfold timers, restart_node.
  repeat first [apply trickle_init_byte_safe | byte_safe_step].
Qed.

Lemma net_step_byte_safe (ev : net_event) : byte_event ev -> byte_safe (net_step ev).
Proof.
  intros Hev.
  destruct ev as [now r [[p |] | [data |] |] | suppress]; cbn [net_step process_event].
  - cbn in Hev. intros s H.
    change (trace_of (tcpip_handler (Some p)) s) with (snd (on_receive p s)).
    change (state_after (tcpip_handler (Some p)) s) with (fst (on_receive p s)).
    rewrite on_receive_cases.
    destruct (token s =? p); [| destruct (theirs_is_newer (token s) p)]; cbn [fst snd];
      (split; [assumption | repeat constructor]).
  - apply byte_safe_ret.
  - apply serial_handler_byte_safe.
  - apply timers_byte_safe.
  - apply timers_byte_safe.
  - intros s H. unfold state_after, trace_of. rewrite trickle_tx_cases.
    destruct ((suppress =? TRICKLE_TIMER_TX_SUPPRESS) || suppress_trickle s)%bool;
      cbn [fst snd]; (split; [assumption |]); repeat constructor.
    exists (token s). auto.
Qed.

(** X7.  As long as the packets that arrive start with a byte, the token
    stays a byte and every packet the node sends is one byte long, through
    any sequence of packets, serial lines, timers and callbacks. *)
Theorem token_and_payload_are_bytes (evs : list net_event) (s : node) :
  byte (token s) -> Forall byte_event evs ->
  byte (token (state_after (run_net evs) s))
  /\ Forall one_byte_send (trace_of (run_net evs) s).
Proof.
  revert s. induction evs as [| ev rest IH]; intros s H Hev.
  - cbn. split; [exact H | constructor].
  - inversion Hev as [| x xs Hx Hxs]; subst.
    cbn [run_net].
    apply (byte_safe_bind (net_step ev) (fun _ => run_net rest)); try assumption.
    + now apply net_step_byte_safe.
    + intros _ s' H'. now apply IH.
Qed.

(** A source at token 255 with a limit above 255 generates the next
    token: it wraps to 0, a byte. *)
Lemma token_and_payload_are_bytes_witness :
  (byte (token (set_is_source true (set_msg_limit 1000 (set_token 255 boot))))
   /\ Forall byte_event [Woken 0 0 Other; Transmit 1])
  /\ byte (token (state_after (run_net [Woken 0 0 Other; Transmit 1])
                    (set_is_source true (set_msg_limit 1000 (set_token 255 boot)))))
  /\ trace_of (run_net [Woken 0 0 Other; Transmit 1])
       (set_is_source true (set_msg_limit 1000 (set_token 255 boot)))
     = [LOG "At %lu: Generating a new token 0x%02x\n" [0]; TT_reset_event;
        LOG "At %lu (I=%lu, c=%u): " []; LOG "Trickle TX token 0x%02x\n" [0];
        UDP_send [0]].
Proof.
  assert (A : byte (token (set_is_source true (set_msg_limit 1000 (set_token 255 boot)))))
    by (unfold byte; cbn; lia).
  assert (F : Forall byte_event [Woken 0 0 Other; Transmit 1]) by (repeat constructor).
  destruct (token_and_payload_are_bytes _ _ A F) as [B _].
  split; [split; assumption | split; [exact B | reflexivity]].
Defined.

End Sending.

(** ** More of the serial line of the trickle firmware *)

Section MoreCommands.

Import C Etimer Eff TrickleFw Obs Runs.

Lemma strtok_limit_line (n : string) :
  numeric n = true -> strtok ("limit " ++ n) = ["limit"; n].
Proof.
  intros Hn. unfold strtok. cbn [append strtok_from Ascii.eqb Bool.eqb].
  rewrite (strtok_numeric_end n Hn). reflexivity.
Qed.

(** X8.  The line "limit N" sets the ceiling of the tokens a source
    generates to N, touches nothing else, and makes no call but to the
    log. *)
Theorem limit_line (now : Z) (n : string) (s : node) :
  numeric n = true ->
  state_after (serial_handler now ("limit " ++ n)) s = set_msg_limit (strtol n) s
  /\ protocol (trace_of (serial_handler now ("limit " ++ n)) s) = [].
Proof.
  intros Hn. unfold state_after, trace_of, serial_handler.
  rewrite strtok_limit_line by assumption.
  destruct (numeric_no_keyword _ Hn) as (K1 & K2 & K3 & K4 & K5 & K6 & K7).
  cbn [serial_loop].
  unfold parse_init, parse_limit, parse_print, parse_sleep, parse_set.
  unfold bind, ret, modify, emit, gets.
  rewrite K1, K2, K3, K4, K5, K6, K7. cbn. split; reflexivity.
Qed.

(** "limit 3" on a fresh node. *)
Lemma limit_line_witness :
  numeric "3" = true
  /\ msg_limit (state_after (serial_handler 0 "limit 3") boot) = 3.
Proof.
  destruct (limit_line 0 "3" boot eq_refl) as [E _].
  split; [reflexivity |].
  change "limit 3" with ("limit " ++ "3"). rewrite E. reflexivity.
Defined.

(** X9.  A zero delay schedules nothing: the line "sleep D" with D a
    number that reads as 0 leaves the node as it was and makes no call, in
    the trickle firmware and in the rmh firmware alike. *)
Theorem sleep_zero_is_ignored (now : Z) (d : string) :
  numeric d = true -> strtol d = 0 ->
  (forall s, TrickleFw.serial_handler now ("sleep " ++ d) s = (tt, s, []))
  /\ (forall s, RmhFw.serial_handler now ("sleep " ++ d) s = (tt, s, [])).
Proof.
  intros Hd Hz. split; intros s.
  - unfold serial_handler. rewrite strtok_sleep_line by assumption.
    destruct (numeric_no_keyword _ Hd) as (K1 & K2 & K3 & K4 & K5 & K6 & K7).
    cbn [serial_loop].
    unfold parse_init, parse_limit, parse_print, parse_sleep, parse_set.
    unfold bind, ret, modify, emit, gets.
    rewrite K1, K2, K3, K4, K5, K6, K7. cbn. rewrite Hz. cbn. now destruct s.
  - unfold RmhFw.serial_handler. rewrite strtok_sleep_line by assumption.
    destruct (numeric_no_rmh_keyword d Hd) as [K1 K2].
    cbn [RmhFw.serial_loop]. unfold RmhFw.serial_body.
    unfold bind at 1 2 3 4 5 6 7. unfold ret, emit, gets.
    rewrite K1, K2. cbn -[RmhFw.reset]. rewrite Hz. reflexivity.
Qed.

(** "sleep 000" on a fresh trickle node and on an rmh node with three
    neighbors. *)
Lemma sleep_zero_is_ignored_witness :
  (numeric "000" = true /\ strtol "000" = 0)
  /\ TrickleFw.serial_handler 5 "sleep 000" boot = (tt, boot, [])
  /\ RmhFw.serial_handler 5 "sleep 000" RmhFw.three_neighbors
     = (tt, RmhFw.three_neighbors, []).
Proof.
  destruct (sleep_zero_is_ignored 5 "000" eq_refl eq_refl) as [T R].
  split; [split; reflexivity |].
  split; [exact (T boot) | exact (R RmhFw.three_neighbors)].
Defined.

(** The pieces of a turn of the loop, as far as the role flags go. *)
Lemma parse_limit_roles (ptr : string) (l : locals) (s : node) :
  is_sink (state_after (parse_limit ptr l) s) = is_sink s
  /\ is_source (state_after (parse_limit ptr l) s) = is_source s
  /\ seen_init (value_of (parse_limit ptr l) s) = seen_init l.
Proof.
  unfold state_after, value_of, parse_limit, bind, ret, modify, emit. cbn.
  destruct (streq ptr "limit"); cbn; [auto |].
  destruct (seen_limit l); cbn; auto.
Qed.

Lemma parse_print_roles (ptr : string) (l : locals) (s : node) :
  is_sink (state_after (parse_print ptr l) s) = is_sink s
  /\ is_source (state_after (parse_print ptr l) s) = is_source s
  /\ seen_init (value_of (parse_print ptr l) s) = seen_init l.
Proof.
  unfold state_after, value_of, parse_print, bind, ret, modify, emit, gets. cbn.
  destruct (streq ptr "print"); cbn; [auto |].
  destruct (seen_print l); cbn; auto.
Qed.

Lemma parse_sleep_seen_init (ptr : string) (l : locals) :
  seen_init (parse_sleep ptr l) = seen_init l.
Proof.
  unfold parse_sleep. destruct (streq ptr "sleep"); cbn; [reflexivity |].
  destruct (seen_sleep l); reflexivity.
Qed.

(** The role is set by the word "sink" or "source" alone: whether the word
    "set" came before makes no difference. *)
Lemma parse_set_roles (now : Z) (ptr : string) (l : locals) (s : node) :
  is_sink (state_after (parse_set now ptr l) s) = (is_sink s || streq ptr "sink")%bool
  /\ is_source (state_after (parse_set now ptr l) s)
     = (is_source s || streq ptr "source")%bool
  /\ seen_init (value_of (parse_set now ptr l) s) = seen_init l.
Proof.
  unfold state_after, value_of, parse_set, trickle_init, bind, ret, modify, emit, gets.
  destruct (streq ptr "sink") eqn:Sk.
  - apply String.eqb_eq in Sk. subst ptr. cbn.
    rewrite orb_true_r, orb_false_r. auto.
  - destruct (streq ptr "source") eqn:Sr.
    + apply String.eqb_eq in Sr. subst ptr. cbn.
      rewrite orb_true_r, orb_false_r. auto.
    + rewrite !orb_false_r.
      destruct (negb (streq ptr "set")); cbn; [auto |].
      destruct (seen_set l); cbn; auto.
Qed.

Lemma serial_loop_roles (now : Z) (toks : list string) (l : locals) (s : node) :
  seen_init l = false -> ~ In "init" toks ->
  is_sink (state_after (serial_loop now toks l) s)
    = (is_sink s || existsb (fun t => streq t "sink") toks)%bool
  /\ is_source (state_after (serial_loop now toks l) s)
     = (is_source s || existsb (fun t => streq t "source") toks)%bool.
Proof.
  revert l s. induction toks as [| ptr rest IH]; intros l s Hl Hn.
  - cbn. now rewrite !orb_false_r.
  - assert (Hp : streq ptr "init" = false).
    { destruct (streq ptr "init") eqn:E; [| reflexivity].
      apply String.eqb_eq in E. exfalso. apply Hn. now left. }
    assert (Hr : ~ In "init" rest) by (intros C; apply Hn; now right).
    cbn [serial_loop].
    assert (P : parse_init ptr l = ret (Some l))
      by (unfold parse_init; now rewrite Hp, Hl).
    rewrite P.
    rewrite state_after_bind. cbn [value_of state_after ret fst snd].
    rewrite !state_after_bind.
    set (s1 := state_after (parse_limit ptr l) s).
    set (l1 := value_of (parse_limit ptr l) s).
    set (s2 := state_after (parse_print ptr l1) s1).
    set (l2 := value_of (parse_print ptr l1) s1).
    set (s3 := state_after (parse_set now ptr (parse_sleep ptr l2)) s2).
    set (l3 := value_of (parse_set now ptr (parse_sleep ptr l2)) s2).
    destruct (parse_limit_roles ptr l s) as (A1 & B1 & C1).
    destruct (parse_print_roles ptr l1 s1) as (A2 & B2 & C2).
    destruct (parse_set_roles now ptr (parse_sleep ptr l2) s2) as (A3 & B3 & C3).
    fold s1 l1 in A1, B1, C1. fold s2 l2 in A2, B2, C2. fold s3 l3 in A3, B3, C3.
    assert (H3 : seen_init l3 = false).
    { rewrite C3, parse_sleep_seen_init, C2, C1. exact Hl. }
    destruct (IH l3 s3 H3 Hr) as [I1 I2].
    rewrite I1, I2, A3, B3, A2, B2, A1, B1. cbn [existsb].
    now rewrite !orb_assoc.
Qed.

(** X10.  On a line that does not hold the word "init", the node becomes
    a sink exactly when the word "sink" is on the line, and a source exactly
    when the word "source" is, with or without the word "set" before it; a
    role once taken is never given up. *)
Theorem role_set_by_word_alone (now : Z) (data : string) (s : node) :
  ~ In "init" (strtok data) ->
  is_sink (state_after (serial_handler now data) s)
    = (is_sink s || existsb (fun t => streq t "sink") (strtok data))%bool
  /\ is_source (state_after (serial_handler now data) s)
     = (is_source s || existsb (fun t => streq t "source") (strtok data))%bool.
Proof.
  intros Hn. unfold serial_handler. rewrite state_after_bind.
  destruct (serial_loop_roles now (strtok data) locals0 s eq_refl Hn) as [A B].
  set (l := value_of (serial_loop now (strtok data) locals0) s).
  destruct (seen_sleep l && (0 <? delay l))%bool.
  - unfold state_after at 1 3, bind, emit, modify. cbn. auto.
  - cbn. auto.
Qed.

(** The line "sink", without "set", on a fresh node. *)
Lemma role_set_by_word_alone_witness :
  (~ In "init" (strtok "sink"))
  /\ is_sink (state_after (serial_handler 0 "sink") boot) = true
  /\ is_source (state_after (serial_handler 0 "sink") boot) = false.
Proof.
  assert (N : ~ In "init" (strtok "sink")) by (cbn; intuition discriminate).
  destruct (role_set_by_word_alone 0 "sink" boot N) as [A B].
  split; [exact N | split; [exact A | exact B]].
Defined.

End MoreCommands.

(** ** More of the neighbor table and of the restart of the rmh firmware *)

Section MoreNeighbors.

Import C Etimer Eff RmhFw.

Lemma memb_alloc_free (m m' : list bool) (i : nat) :
  memb_alloc m = Some (i, m') -> memb_free m' i = m.
Proof.
  revert m' i. induction m as [| u m IH]; cbn; intros m' i H; [discriminate |].
  destruct u.
  - destruct (memb_alloc m) as [[i0 m0] |] eqn:A; [| discriminate].
    injection H as <- <-. cbn. now rewrite (IH _ _ eq_refl).
  - injection H as <- <-. reflexivity.
Qed.

Lemma list_remove_last_fresh (l : list example_neighbor) (e : example_neighbor) :
  ~ In (blk e) (map blk l) -> list_remove (l ++ [e]) e = l.
Proof.
  induction l as [| n l IH]; cbn; intros H.
  - unfold same_block. now rewrite Nat.eqb_refl.
  - unfold same_block. destruct (Nat.eqb (blk e) (blk n)) eqn:E.
    + apply Nat.eqb_eq in E. exfalso. apply H. now left.
    + rewrite IH by tauto. reflexivity.
Qed.

(** X11.  An announcement followed by the expiry of the entry it made
    undoes itself: on a node whose table fits its pool, a neighbor that is
    added and then times out leaves the table and the pool exactly as they
    were. *)
Theorem announcement_then_timeout (now : Z) (from : linkaddr_t) (s : node) :
  wf s -> ~ In from (map addr (neighbor_table s)) -> In false (neighbor_mem s) ->
  state_after (handle (Neighbor_timeout (List.length (neighbor_table s))))
    (state_after (received_announcement now from) s) = s.
Proof.
  intros W Hn Hf.
  pose proof W as (L & NB & NA & U).
  unfold state_after at 2. rewrite received_announcement_cases.
  rewrite (proj2 (refresh_none now from _) Hn).
  destruct (memb_alloc (neighbor_mem s)) as [[i mem'] |] eqn:A;
    [| apply memb_alloc_none in A; contradiction].
  destruct (memb_alloc_some _ _ _ A) as (F & T & O & Lm).
  assert (Fresh : ~ In i (map blk (neighbor_table s))).
  { intros C. apply in_map_iff in C. destruct C as (e & <- & He).
    rewrite Forall_forall in U. specialize (U e He). congruence. }
  rewrite list_add_fresh by exact Fresh. cbn [fst snd].
  unfold state_after, handle, bind, gets. cbn [neighbor_table fst snd].
  rewrite nth_error_app2, Nat.sub_diag by apply le_n. cbn [nth_error].
  unfold remove_neighbor, bind, modify. cbn.
  rewrite list_remove_last_fresh by exact Fresh.
  rewrite (memb_alloc_free _ _ _ A). now destruct s.
Qed.

(** A fourth neighbor, 9.0, is heard by a node with three neighbors, and
    then expires. *)
Lemma announcement_then_timeout_witness :
  (wf three_neighbors
   /\ ~ In (mk_addr 9 0) (map addr (neighbor_table three_neighbors))
   /\ In false (neighbor_mem three_neighbors))
  /\ state_after (handle (Neighbor_timeout (List.length (neighbor_table three_neighbors))))
       (state_after (received_announcement 50 (mk_addr 9 0)) three_neighbors)
     = three_neighbors.
Proof.
  assert (W : wf three_neighbors).
  { unfold three_neighbors.
    repeat (apply received_announcement_on_wf). exact boot_wf. }
  assert (N : ~ In (mk_addr 9 0) (map addr (neighbor_table three_neighbors)))
    by (cbn; intuition discriminate).
  assert (F : In false (neighbor_mem three_neighbors)) by (cbn; tauto).
  split; [split; [exact W | split; [exact N | exact F]] |].
  exact (announcement_then_timeout 50 (mk_addr 9 0) three_neighbors W N F).
Defined.

(** [forward] returns nothing but addresses of the table. *)
Lemma forwarded_in_table (r : Z) (packet : string) (s : node) (a : linkaddr_t) :
  forwarded r packet s = Some a -> In a (map addr (neighbor_table s)).
Proof.
  unfold forwarded. rewrite forward_value.
  destruct (data_buf s); [| discriminate].
  destruct (neighbor_table s) as [| e l]; [discriminate |].
  destruct (nth_error (e :: l) (Z.to_nat (r mod list_length (e :: l)))) as [n |] eqn:N;
    cbn [option_map]; [| discriminate].
  intros H. injection H as <-. apply in_map. now apply (nth_error_In _ _ N).
Qed.

(** On a node whose buffer is allocated, every address of the table is
    returned for some random value. *)
Lemma forwarded_reaches (packet : string) (s : node) (a : linkaddr_t) :
  data_buf s <> None ->
  In a (map addr (neighbor_table s)) ->
  exists r, 0 <= r < list_length (neighbor_table s) /\ forwarded r packet s = Some a.
Proof.
  intros Buf H. apply in_map_iff in H. destruct H as (e & <- & He).
  apply In_nth_error in He. destruct He as [n Hn].
  assert (Ln : (n < List.length (neighbor_table s))%nat)
    by (apply nth_error_Some; congruence).
  exists (Z.of_nat n). unfold list_length. split; [lia |].
  rewrite forwarded_nth by exact Buf.
  destruct (neighbor_table s) as [| e0 l] eqn:E; [cbn in Ln; lia |].
  unfold list_length. rewrite Z.mod_small by lia. rewrite Nat2Z.id, Hn. reflexivity.
Qed.

(** X12.  On a node whose data buffer is allocated, the addresses
    [forward] can return are exactly the addresses of the neighbor table: it
    never names a node that is not a neighbor, and no neighbor is out of its
    reach.  (With the buffer at NULL, as a crash leaves it, [forward] faults
    and returns no address at all.) *)
Theorem forward_targets (packet : string) (s : node) (a : linkaddr_t) :
  data_buf s <> None ->
  (exists r, value_of (forward r packet) s = Done (Some a))
  <-> In a (map addr (neighbor_table s)).
Proof.
  intros Buf. split.
  - intros [r H]. apply (forwarded_in_table r packet). unfold forwarded. now rewrite H.
  - intros H. destruct (forwarded_reaches packet s a Buf H) as (r & _ & Hr).
    exists r. rewrite forward_returns by exact Buf. now rewrite Hr.
Qed.

(** With neighbors 1.0, 2.0 and 3.0, the neighbor 3.0 is returned for the
    random value 2. *)
Lemma forward_targets_witness :
  data_buf three_neighbors <> None
  /\ exists r, value_of (forward r "hello") three_neighbors = Done (Some (mk_addr 3 0)).
Proof.
  assert (Buf : data_buf three_neighbors <> None) by discriminate.
  split; [exact Buf |].
  apply (proj2 (forward_targets "hello" three_neighbors (mk_addr 3 0) Buf)).
  cbn. tauto.
Defined.

(** X13.  In every state a node can reach from its start, through
    announcements, expiries, packets, button presses, serial lines and
    restarts, the neighbor table has at most sixteen entries and no address
    twice. *)
Theorem reachable_table_bounded (es : list event) :
  (List.length (neighbor_table (state_after (run es) boot)) <= MAX_NEIGHBORS)%nat
  /\ NoDup (map addr (neighbor_table (state_after (run es) boot))).
Proof.
  pose proof (run_wf es boot boot_wf) as W.
  split; [now apply wf_bounded | apply W].
Qed.

(** An announcement leaves the data buffer alone. *)
Lemma received_announcement_data_buf (now : Z) (from : linkaddr_t) (s : node) :
  data_buf (state_after (received_announcement now from) s) = data_buf s.
Proof.
  unfold state_after. rewrite received_announcement_cases.
  destruct (refresh now from (neighbor_table s)); [reflexivity |].
  destruct (memb_alloc (neighbor_mem s)) as [[i mem'] |]; reflexivity.
Qed.

(** X14.  After an announcement from [from] on a node whose data buffer
    is allocated, packets can be forwarded to [from] exactly when [from] was
    a neighbor already or the pool had a free block: a new neighbor that
    finds the pool exhausted is not a target. *)
Theorem announced_neighbor_is_target
    (now : Z) (from : linkaddr_t) (packet : string) (s : node) :
  wf s -> data_buf s <> None ->
  (exists r, value_of (forward r packet)
               (state_after (received_announcement now from) s)
             = Done (Some from))
  <-> In from (map addr (neighbor_table s)) \/ In false (neighbor_mem s).
Proof.
  intros W Buf. pose proof W as (L & NB & NA & U).
  assert (Buf' : data_buf (state_after (received_announcement now from) s) <> None)
    by now rewrite received_announcement_data_buf.
  assert (T : In from (map addr (neighbor_table
                                   (state_after (received_announcement now from) s)))
              <-> In from (map addr (neighbor_table s)) \/ In false (neighbor_mem s)).
  { unfold state_after. rewrite received_announcement_cases.
    destruct (refresh now from (neighbor_table s)) as [tbl' |] eqn:R.
    - pose proof (refresh_found now from _ tbl' R) as P.
      rewrite (refresh_some now from _ NA P) in R. injection R as <-.
      cbn. rewrite (proj2 (map_blk_refreshed now from (neighbor_table s))). tauto.
    - pose proof (proj1 (refresh_none now from _) R) as N.
      destruct (memb_alloc (neighbor_mem s)) as [[i mem'] |] eqn:A.
      + cbn. unfold list_add. rewrite map_app. cbn. split.
        * intros _. right.
          destruct (memb_alloc_some _ _ _ A) as (F & _).
          now apply (nth_error_In _ _ F).
        * intros _. apply in_or_app. right. now left.
      + apply memb_alloc_none in A. cbn. tauto. }
  rewrite <- T. split.
  - intros [r H]. apply (forwarded_in_table r packet). unfold forwarded. now rewrite H.
  - intros H. destruct (forwarded_reaches packet _ from Buf' H) as (r & _ & Hr).
    exists r. rewrite forward_returns by exact Buf'. now rewrite Hr.
Qed.

(** The first announcement a node hears, from 2.0. *)
Lemma announced_neighbor_is_target_witness :
  (wf boot /\ data_buf boot <> None)
  /\ exists r, value_of (forward r "hello")
                 (state_after (received_announcement 0 (mk_addr 2 0)) boot)
               = Done (Some (mk_addr 2 0)).
Proof.
  assert (Buf : data_buf boot <> None) by discriminate.
  split; [split; [exact boot_wf | exact Buf] |].
  apply (proj2 (announced_neighbor_is_target 0 (mk_addr 2 0) "hello" boot boot_wf Buf)).
  right. cbn. tauto.
Defined.

(** An entry of the table is the one its block is removed with. *)
Lemma list_remove_present (l : list example_neighbor) (e : example_neighbor) :
  NoDup (map blk l) -> In e l ->
  exists pre post, l = (pre ++ e :: post)%list /\ list_remove l e = (pre ++ post)%list.
Proof.
  induction l as [| n l IH]; cbn; intros ND H; [contradiction |].
  inversion ND as [| b bs Hb ND' Heq]; subst.
  unfold same_block. destruct (Nat.eqb (blk e) (blk n)) eqn:E.
  - apply Nat.eqb_eq in E. destruct H as [-> | H].
    + exists [], l. split; reflexivity.
    + exfalso. apply Hb. rewrite <- E. now apply in_map.
  - apply Nat.eqb_neq in E. destruct H as [-> | H]; [congruence |].
    destruct (IH ND' H) as (pre & post & -> & R).
    exists (n :: pre), post. cbn. rewrite R. split; reflexivity.
Qed.

(** X15.  Once the timer of a neighbor has fired, packets are never
    forwarded to it, whatever the random value, and every other neighbor
    is still in the table. *)
Theorem expired_neighbor_is_no_target (e : example_neighbor) (packet : string) (s : node) :
  wf s -> In e (neighbor_table s) ->
  (forall r, forwarded r packet (state_after (remove_neighbor e) s) <> Some (addr e))
  /\ (forall a, a <> addr e ->
        (In a (map addr (neighbor_table (state_after (remove_neighbor e) s)))
         <-> In a (map addr (neighbor_table s)))).
Proof.
  intros (L & NB & NA & U) He.
  destruct (list_remove_present _ e NB He) as (pre & post & Hl & Hr).
  assert (T : neighbor_table (state_after (remove_neighbor e) s) = (pre ++ post)%list).
  { unfold state_after, remove_neighbor, bind, modify. cbn. exact Hr. }
  rewrite Hl in NA. rewrite map_app in NA. cbn [map] in NA.
  split.
  - intros r C. apply forwarded_in_table in C. rewrite T, map_app in C.
    apply NoDup_remove_2 in NA. now apply NA.
  - intros a Ha. rewrite T, Hl, !map_app. cbn [map].
    rewrite !in_app_iff. cbn [In]. intuition congruence.
Qed.

(** Of the neighbors 1.0, 2.0 and 3.0, the second one expires. *)
Lemma expired_neighbor_is_no_target_witness :
  (wf three_neighbors
   /\ In (mk_neighbor 1 (mk_addr 2 0) (Some 7680)) (neighbor_table three_neighbors))
  /\ forall r,
       forwarded r "hello"
         (state_after (remove_neighbor (mk_neighbor 1 (mk_addr 2 0) (Some 7680)))
            three_neighbors)
       <> Some (mk_addr 2 0).
Proof.
  assert (W : wf three_neighbors).
  { unfold three_neighbors.
    repeat (apply received_announcement_on_wf). exact boot_wf. }
  assert (I : In (mk_neighbor 1 (mk_addr 2 0) (Some 7680)) (neighbor_table three_neighbors))
    by (cbn; tauto).
  split; [split; assumption |].
  exact (proj1 (expired_neighbor_is_no_target
                  (mk_neighbor 1 (mk_addr 2 0) (Some 7680)) "hello" three_neighbors W I)).
Defined.



(** X17.  A serial line does one of two things to a node: nothing, or,
    if the line holds an effective "sleep" and the node has neighbors, the
    crash that empties the table and arms the restart.  In particular
    "print" changes nothing in the node. *)
Theorem rmh_serial_line_effect (now : Z) (data : string) (s : node) :
  state_after (serial_handler now data) s = s
  \/ (neighbor_table s <> []
      /\ exists delay,
           0 < delay
           /\ state_after (serial_handler now data) s
              = mk_node None (Some (now + delay * CLOCK_SECOND)) true []
                  (neighbor_mem s)).
Proof.
  unfold serial_handler. rewrite state_after_bind, serial_loop_state.
  set (l := value_of (serial_loop (strtok data) (mk_locals 0 false false)) s).
  destruct (seen_sleep l && (0 <? delay l))%bool eqn:C; [| now left].
  apply andb_prop in C. destruct C as [_ C]. apply Z.ltb_lt in C.
  destruct (neighbor_table s) as [| e t] eqn:E.
  - left. unfold state_after. now rewrite reset_without_neighbors.
  - right. split; [discriminate |]. exists (delay l). split; [exact C |].
    unfold state_after. rewrite reset_with_neighbors by congruence. reflexivity.
Qed.

End MoreNeighbors.

(** ** Two more edges of the trickle firmware *)

Section Edges.

Import C Etimer Eff TrickleFw Obs Runs.

Lemma strtok_init_line_more (a b c rest : string) :
  numeric a = true -> numeric b = true -> numeric c = true ->
  strtok ("init " ++ a ++ " " ++ b ++ " " ++ c ++ " " ++ rest)
  = "init" :: a :: b :: c :: strtok rest.
Proof.
  intros Ha Hb Hc. unfold strtok. cbn [append strtok_from Ascii.eqb Bool.eqb].
  change (" " ++ b ++ " " ++ c ++ " " ++ rest)%string
    with (String " " (b ++ String " " (c ++ String " " rest))).
  now rewrite (strtok_numeric a _ Ha), (strtok_numeric b _ Hb), (strtok_numeric c _ Hc).
Qed.

(** X18.  Whatever follows the three numbers of an "init" line is never
    read: the loop is left at the third number, so a "sleep", a "print", a
    role or a limit on the same line has no effect. *)
Theorem init_line_drops_the_rest (now : Z) (a b c rest : string) (s : node) :
  numeric a = true -> numeric b = true -> numeric c = true ->
  serial_handler now ("init " ++ a ++ " " ++ b ++ " " ++ c ++ " " ++ rest) s
  = serial_handler now ("init " ++ a ++ " " ++ b ++ " " ++ c) s.
Proof.
  intros Ha Hb Hc. rewrite (serial_init_line now a b c s Ha Hb Hc).
  unfold serial_handler. rewrite strtok_init_line_more by assumption.
  destruct (numeric_no_keyword _ Ha) as (A1 & A2 & A3 & A4 & A5 & A6 & A7).
  destruct (numeric_no_keyword _ Hb) as (B1 & B2 & B3 & B4 & B5 & B6 & B7).
  destruct (numeric_no_keyword _ Hc) as (C1 & C2 & C3 & C4 & C5 & C6 & C7).
  cbn [serial_loop].
  unfold parse_init, parse_limit, parse_print, parse_sleep, parse_set.
  unfold bind, ret, modify, emit, gets.
  rewrite A1, A2, A3, A4, A5, A6, A7, B1, B2, B3, B4, B5, B6, B7, C1.
  cbn. reflexivity.
Qed.

(** "init 10 16 2 sleep 5 sink": no restart is scheduled, the node is
    no sink. *)
Lemma init_line_drops_the_rest_witness :
  (numeric "10" = true /\ numeric "16" = true /\ numeric "2" = true)
  /\ serial_handler 0 "init 10 16 2 sleep 5 sink" boot
     = serial_handler 0 "init 10 16 2" boot
  /\ reset_scheduled (state_after (serial_handler 0 "init 10 16 2 sleep 5 sink") boot)
     = false.
Proof.
  pose proof (init_line_drops_the_rest 0 "10" "16" "2" "sleep 5 sink" boot
                eq_refl eq_refl eq_refl) as E.
  split; [repeat split |]. split; [exact E | reflexivity].
Defined.



End Edges.

(** ** Runs of a sleeping node *)

Section TrickleInterim.

Import C Etimer Eff TrickleFw Obs Runs.










End TrickleInterim.

Section RmhInterim.

Import C Etimer Eff RmhFw.













End RmhInterim.

(** ** The "sleep" command in both firmwares *)

Section Sleep.

Import C Etimer Eff.







End Sleep.
